(** * CS odds arbitrage monitor: the matching, detection and staking core

    A shallow embedding of [src/arbitrage_monitor.py]: name normalisation
    ([normalize_team], [alias_lookup]), grouping ([group_by_match]),
    detection ([detect_two_way_arbitrage]), staking ([stake_split]) and the
    pure part of one polling cycle of [run].

    Strings.  A Python [str] is modelled as a [string] whose characters are
    the code points 0..255; [str.lower], [str.strip] and [str.replace] are
    the builtins restricted to that range.

    Numbers.  A Python [float] is an IEEE-754 binary64 value and [x / y]
    raises [ZeroDivisionError] when [y] is zero.  The numeric code is
    written once over the interface [PyFloat] and run at two instances:
    [Binary64] (Rocq's primitive floats, bit for bit what Python computes)
    and [Exact] (rationals, the arithmetic in which the algebraic
    identities of the staking formula are meant). *)

From Stdlib Require Import ZArith QArith Qround Qabs Floats Ascii String List
  Permutation Bool Lia Lqa.
From Stdlib Require Uint63.
Import ListNotations.

Set Warnings "-inexact-float".

(** ** Strings *)

Module Str.
Local Open Scope string_scope.
Local Open Scope N_scope.

(** [str.isspace] on one code point below 256. *)
Definition is_space (c : ascii) : bool :=
  let n := N_of_ascii c in
  ((9 <=? n) && (n <=? 13)) || ((28 <=? n) && (n <=? 32))
  || (n =? 133) || (n =? 160).

(** [str.lower] on one code point below 256: A-Z and the Latin-1 capitals. *)
Definition lower_char (c : ascii) : ascii :=
  let n := N_of_ascii c in
  if ((65 <=? n) && (n <=? 90))
     || ((192 <=? n) && (n <=? 222) && negb (n =? 215))
  then ascii_of_N (n + 32) else c.

Fixpoint lower (s : string) : string :=
  match s with
  | EmptyString => EmptyString
  | String c s' => String (lower_char c) (lower s')
  end.

Fixpoint lstrip (s : string) : string :=
  match s with
  | EmptyString => EmptyString
  | String c s' => if is_space c then lstrip s' else s
  end.

Fixpoint rstrip (s : string) : string :=
  match s with
  | EmptyString => EmptyString
  | String c s' =>
      match rstrip s' with
      | EmptyString => if is_space c then EmptyString else String c EmptyString
      | r => String c r
      end
  end.

(** [s.strip()] *)
Definition strip (s : string) : string := rstrip (lstrip s).

(** [s.replace(old, new)] for a non-empty [old]: occurrences are found from
    the left and do not overlap; [skip] counts the characters of the
    occurrence just replaced that are still to be passed over. *)
Fixpoint replace_from (old new : string) (skip : nat) (s : string) : string :=
  match s with
  | EmptyString => EmptyString
  | String c s' =>
      match skip with
      | S k => replace_from old new k s'
      | O =>
          if prefix old s
          then new ++ replace_from old new (String.length old - 1) s'
          else String c (replace_from old new 0 s')
      end
  end.

Definition replace (old new s : string) : string := replace_from old new 0 s.

(** [old in s] *)
Fixpoint contains (old s : string) : bool :=
  prefix old s ||
  match s with
  | EmptyString => false
  | String _ s' => contains old s'
  end.

(** Every character is whitespace (the empty string included). *)
Fixpoint blank (s : string) : bool :=
  match s with
  | EmptyString => true
  | String c s' => is_space c && blank s'
  end.

(** The string is empty or starts with a character that is not whitespace. *)
Definition clean_start (s : string) : Prop :=
  match s with
  | EmptyString => True
  | String c _ => is_space c = false
  end.

(** One of the filler tokens occurs in [s]; an occurrence of ["esports"]
    is one of ["esport"]. *)
Definition has_filler (s : string) : bool :=
  contains "esport" s || contains "team" s.

(** The three chained [replace] calls of [normalize_team]. *)
Definition strip_fillers (s : string) : string :=
  replace "team" "" (replace "esport" "" (replace "esports" "" s)).

(** [normalize_team], lines 85-88. *)
Definition normalize_team (name : string) : string :=
  let s := lower (strip name) in
  let s := strip (strip_fillers s) in
  s.

(** [sorted] on a list of strings: a stable insertion sort by [<]. *)
Fixpoint insert_sorted (x : string) (l : list string) : list string :=
  match l with
  | [] => [x]
  | y :: l' => if String.ltb x y then x :: l else y :: insert_sorted x l'
  end.

Definition sorted (l : list string) : list string :=
  fold_left (fun acc x => insert_sorted x acc) l [].

(** [tuple(sorted([t1, t2]))] *)
Definition sorted_pair (t1 t2 : string) : string * string :=
  match sorted [t1; t2] with
  | [a; b] => (a, b)
  | _ => (t1, t2)
  end.

End Str.

Import Str.
Local Open Scope string_scope.

(** ** Errors *)

Inductive exn : Set := ZeroDivisionError.

Inductive result (A : Type) : Type :=
| Ok (a : A)
| Raise (e : exn).
Arguments Ok {A} a.
Arguments Raise {A} e.

Definition bind {A B : Type} (m : result A) (k : A -> result B) : result B :=
  match m with
  | Ok a => k a
  | Raise e => Raise e
  end.

Declare Scope result_scope.
Delimit Scope result_scope with result.
Notation "x <- m ;; k" := (bind m (fun x => k))
  (at level 61, m at next level, right associativity) : result_scope.

(** ** Numbers *)

(** The operations the program applies to a [float]. *)
Class PyFloat (F : Type) : Type := {
  of_int : Z -> F;                 (* an integer or [n.0] literal *)
  fadd : F -> F -> F;
  fsub : F -> F -> F;
  fmul : F -> F -> F;
  fdiv : F -> F -> result F;       (* [/] raises on a zero divisor *)
  flt : F -> F -> bool;
  fle : F -> F -> bool;
  fround : F -> Z -> F             (* [round(x, ndigits)], 0 <= ndigits <= 22 *)
}.

(** Nearest integer, ties to the even one. *)
Definition round_half_even (q : Q) : Z :=
  let f := Qfloor q in
  match (q - inject_Z f ?= 1 # 2)%Q with
  | Lt => f
  | Gt => (f + 1)%Z
  | Eq => if Z.even f then f else (f + 1)%Z
  end.

Module Exact.

Definition round (q : Q) (ndigits : Z) : Q :=
  let scale := inject_Z (10 ^ ndigits) in
  (inject_Z (round_half_even (q * scale)) / scale)%Q.

Definition div (x y : Q) : result Q :=
  if Qeq_bool y 0 then Raise ZeroDivisionError else Ok (x / y)%Q.

#[global] Instance exact : PyFloat Q := {
  of_int := inject_Z;
  fadd := Qplus;
  fsub := Qminus;
  fmul := Qmult;
  fdiv := div;
  flt := fun x y => negb (Qle_bool y x);
  fle := Qle_bool;
  fround := round
}.

End Exact.

Module Binary64.
Local Open Scope float_scope.

(** Magnitude of a finite non-zero double [m * 2^e]. *)
Definition magnitude (m : positive) (e : Z) : Q :=
  match e with
  | Z0 => inject_Z (Zpos m)
  | Zpos p => inject_Z (Zpos m * 2 ^ Zpos p)
  | Zneg p => Zpos m # (2 ^ p)
  end.

Definition of_int (n : Z) : float :=
  if (n <? 0)%Z then - of_uint63 (Uint63.of_Z (- n)) else of_uint63 (Uint63.of_Z n).

(** [round(x, ndigits)] as CPython computes it: the exact value of [x] is
    rounded half-even to [ndigits] decimals, and the double nearest to that
    decimal is returned, with the sign of [x].  When the scaled integer [n]
    is below 2^53 it is a double and the correctly rounded quotient
    [n / 10^ndigits] is that nearest double; from 2^53 on, doubles around
    [x] are more than [10^-ndigits] apart and [x] itself is the nearest.
    Zeros, infinities and NaN are returned unchanged. *)
Definition round (x : float) (ndigits : Z) : float :=
  match Prim2SF x with
  | S754_finite s m e =>
      let scale := (10 ^ ndigits)%Z in
      let n := round_half_even (magnitude m e * inject_Z scale)%Q in
      if (n <? 2 ^ 53)%Z then
        let r := of_uint63 (Uint63.of_Z n) / of_uint63 (Uint63.of_Z scale) in
        if s then - r else r
      else x
  | _ => x
  end.

Definition div (x y : float) : result float :=
  if PrimFloat.eqb y 0 then Raise ZeroDivisionError else Ok (x / y).

#[global] Instance binary64 : PyFloat float := {
  of_int := of_int;
  fadd := PrimFloat.add;
  fsub := PrimFloat.sub;
  fmul := PrimFloat.mul;
  fdiv := div;
  flt := PrimFloat.ltb;
  fle := PrimFloat.leb;
  fround := round
}.

End Binary64.

(** ** Data model and engine *)

Definition FUZZY_MATCH_THRESHOLD : Z := 90.

Section Engine.

Context {F : Type} `{PyFloat F}.

Local Open Scope result_scope.

(** [EventOdds], lines 59-70; [start_time] is kept as an opaque instant and
    [raw] as its list of items. *)
Record EventOdds : Type := mkEventOdds {
  match_id : string;
  site : string;
  sport : string;
  league : option string;
  start_time : option Z;
  team1 : string;
  team2 : string;
  odds_team1 : F;
  odds_team2 : F;
  raw : list (string * string)
}.

(** [EventOdds.teams_key], lines 72-75. *)
Definition teams_key (self : EventOdds) : string * string :=
  let t1 := normalize_team (team1 self) in
  let t2 := normalize_team (team2 self) in
  sorted_pair t1 t2.

(** The alias table [ALIASES] (canonical name, alternate spellings), in
    iteration order, and rapidfuzz's [process.extractOne] with the
    [token_set_ratio] scorer: the best choice and its score, if any. *)
Variable ALIASES : list (string * list string).
Variable extractOne : string -> list string -> option (string * F).

(** The loop of [alias_lookup]: the canonical name of the first group that
    scores at least the threshold. *)
Fixpoint alias_scan (norm : string) (table : list (string * list string))
  : option string :=
  match table with
  | [] => None
  | (canonical, alt_list) :: rest =>
      let choices := canonical :: alt_list in
      match extractOne norm choices with
      | Some (_, score) =>
          if fle (of_int FUZZY_MATCH_THRESHOLD) score then Some canonical
          else alias_scan norm rest
      | None => alias_scan norm rest
      end
  end.

(** [alias_lookup], lines 90-99. *)
Definition alias_lookup (name : string) : string :=
  let norm := normalize_team name in
  match alias_scan norm ALIASES with
  | Some canonical => canonical
  | None => norm
  end.

(** [implied_prob], lines 111-112. *)
Definition implied_prob (odds : F) : result F := fdiv (of_int 1) odds.

(** [tuple(sorted([alias_lookup(a), alias_lookup(b)]))] *)
Definition pair_key (a b : string) : string * string :=
  sorted_pair (alias_lookup a) (alias_lookup b).

(** The key computed in [group_by_match], line 243. *)
Definition match_key (ev : EventOdds) : string * string :=
  pair_key (team1 ev) (team2 ev).

Definition key_eqb (k k' : string * string) : bool :=
  String.eqb (fst k) (fst k') && String.eqb (snd k) (snd k').

(** [buckets.setdefault(k, []).append(ev)] on a dict kept as its items in
    insertion order. *)
Fixpoint setdefault_append (k : string * string) (ev : EventOdds)
  (buckets : list ((string * string) * list EventOdds))
  : list ((string * string) * list EventOdds) :=
  match buckets with
  | [] => [(k, [ev])]
  | (k', l) :: rest =>
      if key_eqb k k' then (k', (l ++ [ev])%list) :: rest
      else (k', l) :: setdefault_append k ev rest
  end.

(** [group_by_match], lines 240-245. *)
Definition group_by_match (events : list EventOdds)
  : list ((string * string) * list EventOdds) :=
  fold_left (fun buckets ev => setdefault_append (match_key ev) ev buckets)
    events [].

(** [buckets[k]], with [None] for a missing key. *)
Fixpoint lookup (k : string * string)
  (buckets : list ((string * string) * list EventOdds))
  : option (list EventOdds) :=
  match buckets with
  | [] => None
  | (k', l) :: rest => if key_eqb k k' then Some l else lookup k rest
  end.

(** [max(first :: rest, key=key)]: the running best is replaced only by an
    item whose key is strictly greater. *)
Definition py_max {A : Type} (key : A -> F) (first : A) (rest : list A) : A :=
  fold_left (fun best e => if flt (key best) (key e) then e else best)
    rest first.

(** [min(a, b)] *)
Definition py_min (a b : F) : F := if flt b a then b else a.

(** The dict returned by [detect_two_way_arbitrage]. *)
Record Arb : Type := mkArb {
  arb_team1 : string;
  arb_team2 : string;
  site_team1 : string;
  site_team2 : string;
  arb_odds_team1 : F;
  arb_odds_team2 : F;
  prob_sum : F;
  margin : F
}.

(** [detect_two_way_arbitrage], lines 248-266. *)
Definition detect_two_way_arbitrage (booklines : list EventOdds)
  : result (option Arb) :=
  match booklines with
  | [] => Ok None
  | first :: rest =>
      let best_t1 := py_max odds_team1 first rest in
      let best_t2 := py_max odds_team2 first rest in
      i1 <- implied_prob (odds_team1 best_t1) ;;
      i2 <- implied_prob (odds_team2 best_t2) ;;
      let p_sum := fadd i1 i2 in
      if flt p_sum (of_int 1) then
        let margin := fsub (of_int 1) p_sum in
        Ok (Some {| arb_team1 := team1 best_t1;
                    arb_team2 := team2 best_t2;
                    site_team1 := site best_t1;
                    site_team2 := site best_t2;
                    arb_odds_team1 := odds_team1 best_t1;
                    arb_odds_team2 := odds_team2 best_t2;
                    prob_sum := p_sum;
                    margin := margin |})
      else Ok None
  end.

(** Lines 270-274 of [stake_split]: the two unrounded stakes. *)
Definition raw_stakes (total_stake odds1 odds2 : F) : result (F * F) :=
  inv1 <- fdiv (of_int 1) odds1 ;;
  inv2 <- fdiv (of_int 1) odds2 ;;
  let denom := fadd inv1 inv2 in
  share <- fdiv inv1 denom ;;
  let s1 := fmul total_stake share in
  let s2 := fsub total_stake s1 in
  Ok (s1, s2).

(** The two arguments of [min] on line 275. *)
Definition leg_profit (s odds : F) : F := fmul s (fsub odds (of_int 1)).

(** [stake_split], lines 269-276. *)
Definition stake_split (total_stake odds1 odds2 : F) : result (F * F * F) :=
  st <- raw_stakes total_stake odds1 odds2 ;;
  let '(s1, s2) := st in
  let profit := py_min (leg_profit s1 odds1) (leg_profit s2 odds2) in
  Ok (fround s1 2, fround s2 2, fround profit 2).

(** One row of the CSV log, without its timestamp. *)
Record Row : Type := mkRow {
  row_t1 : string;
  row_t2 : string;
  row_site1 : string;
  row_site2 : string;
  row_odds1 : F;
  row_odds2 : F;
  row_prob_sum : F;
  row_margin : F;
  row_stake1 : F;
  row_stake2 : F;
  row_profit : F
}.

(** The body of the loop over [by_match.items()] in [run], lines 420-451:
    the row logged for one bucket, if any. *)
Definition settle_bucket (total_stake : F) (key : string * string)
  (booklines : list EventOdds) : result (option Row) :=
  if (List.length booklines <? 2)%nat then Ok None
  else
    arb <- detect_two_way_arbitrage booklines ;;
    match arb with
    | None => Ok None
    | Some arb =>
        sp <- stake_split total_stake (arb_odds_team1 arb) (arb_odds_team2 arb) ;;
        let '(s1, s2, profit) := sp in
        let '(t1, t2) := key in
        Ok (Some {| row_t1 := t1;
                    row_t2 := t2;
                    row_site1 := site_team1 arb;
                    row_site2 := site_team2 arb;
                    row_odds1 := arb_odds_team1 arb;
                    row_odds2 := arb_odds_team2 arb;
                    row_prob_sum := fround (prob_sum arb) 5;
                    row_margin := fround (margin arb) 5;
                    row_stake1 := s1;
                    row_stake2 := s2;
                    row_profit := profit |})
    end.

(** The loop over [by_match.items()]: the log after the rows appended by
    the loop, and the exception that ended it, if any. *)
Fixpoint settle (total_stake : F)
  (by_match : list ((string * string) * list EventOdds))
  (log : list Row) : list Row * option exn :=
  match by_match with
  | [] => (log, None)
  | (key, booklines) :: rest =>
      match settle_bucket total_stake key booklines with
      | Ok (Some row) => settle total_stake rest (log ++ [row])%list
      | Ok None => settle total_stake rest log
      | Raise e => (log, Some e)
      end
  end.

(** The pure part of one iteration of [run]'s loop, lines 418-451, on the
    events fetched in that cycle, starting from an empty log. *)
Definition cycle (total_stake : F) (all_events : list EventOdds)
  : list Row * option exn :=
  settle total_stake (group_by_match all_events) [].

End Engine.

Arguments EventOdds F : clear implicits.
Arguments Arb F : clear implicits.
Arguments Row F : clear implicits.

(** The alias table as the source ships it: [ALIASES = {}]. *)
Definition ALIASES : list (string * list string) := [].

(** ** Parsing odds *)

Module Parse.

(** [str.isdigit] on one code point below 256: 0-9 and the superscripts
    two, three and one. *)
Definition is_digit (c : ascii) : bool :=
  let n := N_of_ascii c in
  (((48 <=? n) && (n <=? 57)) || (n =? 178) || (n =? 179) || (n =? 185))%N.

(** The digits that a [float] literal accepts, among code points below 256. *)
Definition is_decimal_digit (c : ascii) : bool :=
  let n := N_of_ascii c in ((48 <=? n) && (n <=? 57))%N.

Definition digit_value (c : ascii) : Z := Z.of_N (N_of_ascii c) - 48.

Definition is_point (c : ascii) : bool := Ascii.eqb c ".".

Definition is_comma (c : ascii) : bool := Ascii.eqb c ",".

(** [ch.isdigit() or ch in '.,'] *)
Definition kept (c : ascii) : bool := is_digit c || is_point c || is_comma c.

(** [''.join(ch for ch in s if f(ch))] *)
Fixpoint filter (f : ascii -> bool) (s : string) : string :=
  match s with
  | EmptyString => EmptyString
  | String c s' => if f c then String c (filter f s') else filter f s'
  end.

(** [any(f(ch) for ch in s)] and [all(f(ch) for ch in s)] *)
Fixpoint any (f : ascii -> bool) (s : string) : bool :=
  match s with
  | EmptyString => false
  | String c s' => f c || any f s'
  end.

Fixpoint all (f : ascii -> bool) (s : string) : bool :=
  match s with
  | EmptyString => true
  | String c s' => f c && all f s'
  end.

(** [s.count(c)] for a single character [c] *)
Fixpoint count (c : ascii) (s : string) : nat :=
  match s with
  | EmptyString => O
  | String d s' => if Ascii.eqb d c then S (count c s') else count c s'
  end.

(** [s.split(c)] for a single character [c]: never the empty list. *)
Fixpoint split (c : ascii) (s : string) : list string :=
  match s with
  | EmptyString => [EmptyString]
  | String d s' =>
      if Ascii.eqb d c then EmptyString :: split c s'
      else match split c s' with
           | [] => [String d EmptyString]
           | part :: parts => String d part :: parts
           end
  end.

(** [''.join(parts)] *)
Definition join (parts : list string) : string :=
  fold_right append EmptyString parts.

(** Lines 104-108 of [parse_decimal]: a lone comma becomes the point, and
    of several points only the first is kept. *)
Definition decimal_point (keep : string) : string :=
  let keep :=
    if ((count "," keep =? 1) && (count "." keep =? 0))%nat
    then replace "," "." keep else keep in
  let parts := split "." keep in
  if (2 <? List.length parts)%nat
  then hd EmptyString parts ++ "." ++ join (tl parts)
  else keep.

(** The text handed to [float] by [parse_decimal], lines 102-108; the
    first argument of [replace] is the no-break space. *)
Definition clean_decimal (txt : string) : string :=
  let s := replace (String (ascii_of_N 160) "") " " (strip txt) in
  let keep := filter kept s in
  decimal_point keep.

(** The syntax of [float(s)] on a text of digits, points and commas: digits
    with at most one point and at least one digit.  [seen_point] tells
    whether the point has been read, [digits] whether a digit has; the
    result is the integer [n] written by the digits and the number [k] of
    digits behind the point, for the value [n / 10^k]. *)
Fixpoint scan_literal (s : string) (seen_point digits : bool) (n : Z) (k : nat)
  : option (Z * nat) :=
  match s with
  | EmptyString => if digits then Some (n, k) else None
  | String c s' =>
      if is_decimal_digit c then
        scan_literal s' seen_point true (10 * n + digit_value c)
          (if seen_point then S k else k)
      else if is_point c then
        if seen_point then None else scan_literal s' true digits n k
      else None
  end.

Definition float_literal (s : string) : option (Z * nat) :=
  scan_literal s false false 0 0.

(** A character other than the point; a digit for [str.isdigit] that a
    [float] literal does not accept. *)
Definition not_point (c : ascii) : bool := negb (is_point c).

Definition superscript (c : ascii) : bool :=
  is_digit c && negb (is_decimal_digit c).

(** [int(s)] for a text of digits 0-9, continuing from [n]. *)
Fixpoint number_from (n : Z) (s : string) : Z :=
  match s with
  | EmptyString => n
  | String c s' => number_from (10 * n + digit_value c) s'
  end.

Definition number (s : string) : Z := number_from 0 s.

End Parse.

(** The float denoted by a decimal: [float_of_decimal n k] is the value
    of the type nearest to [n / 10^k], for [n >= 0]. *)
Class PyFloatLiteral (F : Type) : Type := {
  float_of_decimal : Z -> nat -> F
}.

#[global] Instance exact_literal : PyFloatLiteral Q := {
  float_of_decimal := fun n k => (inject_Z n / inject_Z (10 ^ Z.of_nat k))%Q
}.

(** On binary64 the nearest double is the correctly rounded quotient of the
    two integers, computed by the reference division on integer
    significands of any size; an overflow gives infinity. *)
Definition binary64_of_decimal (n : Z) (k : nat) : float :=
  match n with
  | Zpos p =>
      SF2Prim (SFdiv prec emax (S754_finite false p 0)
                 (S754_finite false (Z.to_pos (10 ^ Z.of_nat k)) 0))
  | _ => 0%float
  end.

#[global] Instance binary64_literal : PyFloatLiteral float := {
  float_of_decimal := binary64_of_decimal
}.

(** [parse_decimal], lines 101-109; [None] stands for the [ValueError]
    raised by [float]. *)
Definition parse_decimal {F : Type} `{PyFloatLiteral F} (txt : string)
  : option F :=
  match Parse.float_literal (Parse.clean_decimal txt) with
  | Some (n, k) => Some (float_of_decimal n k)
  | None => None
  end.

(** ** Extraction and polling *)

Section Extraction.

Context {F : Type} `{PyFloat F} `{PyFloatLiteral F}.

(** The document tree of BeautifulSoup and the calls made on it:
    [BeautifulSoup(html, "html.parser")], [node.select(sel)],
    [node.select_one(sel)] and [el.get_text(strip=True)]; [dt_parse] is
    dateutil's [parser.parse].  [None] stands for a raised exception. *)
Variable node : Type.
Variable BeautifulSoup : string -> node.
Variable select : node -> string -> option (list node).
Variable select_one : node -> string -> option (option node).
Variable get_text : node -> string.
Variable dt_parse : string -> option Z.

(** The browser session of [fetch]: the page content for a URL, or [None]
    when Playwright is missing or anything in the session raises. *)
Variable page_content : string -> option string.

(** [PlaywrightHTMLAdapter]; [selectors] is the dict, as its items. *)
Record Adapter : Type := mkAdapter {
  url : string;
  site_name : string;
  selectors : list (string * list string);
  wait_selector : option string
}.

(** [d.get(key)] on a dict kept as its items. *)
Fixpoint dict_get (d : list (string * list string)) (key : string)
  : option (list string) :=
  match d with
  | [] => None
  | (k, v) :: rest => if String.eqb k key then Some v else dict_get rest key
  end.

(** [d.get(key, [])] *)
Definition dict_get_default (d : list (string * list string)) (key : string)
  : list string :=
  match dict_get d key with
  | Some v => v
  | None => []
  end.

(** [__first_text], lines 149-156: the outer [None] is an exception, the
    inner one the returned [None]. *)
Fixpoint _first_text (nd : node) (sels : list string) : option (option string) :=
  match sels with
  | [] => Some None
  | sel :: rest =>
      match select_one nd sel with
      | None => None
      | Some None => _first_text nd rest
      | Some (Some el) =>
          let txt := get_text el in
          if String.eqb txt "" then _first_text nd rest else Some (Some txt)
      end
  end.

(** The loop over [self.selectors["containers"]], lines 161-165. *)
Fixpoint find_containers (soup : node) (csels : list string)
  : option (list node) :=
  match csels with
  | [] => Some []
  | csel :: rest =>
      match select soup csel with
      | None => None
      | Some [] => find_containers soup rest
      | Some containers => Some containers
      end
  end.

(** The body of the loop over the containers, lines 176-205: the record
    appended, or [None] when the container is skipped, by [continue] or by
    the [except] clause. *)
Definition extract_match (self : Adapter) (m : node) : option (EventOdds F) :=
  let team1_sels := dict_get_default (selectors self) "team1" in
  let team2_sels := dict_get_default (selectors self) "team2" in
  let odds1_sels := dict_get_default (selectors self) "odds1" in
  let odds2_sels := dict_get_default (selectors self) "odds2" in
  let start_sels := dict_get_default (selectors self) "start" in
  match _first_text m team1_sels, _first_text m team2_sels,
        _first_text m odds1_sels, _first_text m odds2_sels with
  | Some (Some t1), Some (Some t2), Some (Some o1_txt), Some (Some o2_txt) =>
      match parse_decimal o1_txt, parse_decimal o2_txt with
      | Some o1, Some o2 =>
          let build start :=
            Some {| match_id := "pw-" ++ t1 ++ "-" ++ t2;
                    site := site_name self; sport := "CS2"; league := None;
                    start_time := start; team1 := t1; team2 := t2;
                    odds_team1 := o1; odds_team2 := o2; raw := [] |} in
          match start_sels with
          | [] => build None
          | _ :: _ =>
              match _first_text m start_sels with
              | None => None
              | Some None => build None
              | Some (Some st_txt) => build (dt_parse st_txt)
              end
          end
      | _, _ => None
      end
  | _, _, _, _ => None
  end.

(** The loop over the containers: the records of those not skipped. *)
Fixpoint extract_matches (self : Adapter) (containers : list node)
  : list (EventOdds F) :=
  match containers with
  | [] => []
  | m :: rest =>
      match extract_match self m with
      | Some ev => ev :: extract_matches self rest
      | None => extract_matches self rest
      end
  end.

(** [_extract], lines 158-206; [None] is the [KeyError] of a missing
    "containers" entry or an exception of [select]. *)
Definition _extract (self : Adapter) (html : string) : option (list (EventOdds F)) :=
  let soup := BeautifulSoup html in
  match dict_get (selectors self) "containers" with
  | None => None
  | Some csels =>
      match find_containers soup csels with
      | None => None
      | Some containers => Some (extract_matches self containers)
      end
  end.

(** [fetch], lines 208-234: every failure gives the empty list. *)
Definition fetch (self : Adapter) : list (EventOdds F) :=
  match page_content (url self) with
  | None => []
  | Some html =>
      match _extract self html with
      | None => []
      | Some events => events
      end
  end.

(** The events gathered at the start of a cycle of [run], lines 412-416. *)
Definition poll (adapters : list Adapter) : list (EventOdds F) :=
  flat_map fetch adapters.

End Extraction.

(** ** Notions used in the statements *)

(** The group [(canonical, alt_list)] reaches the threshold for [norm] in
    the loop of [alias_lookup]. *)
Definition hits {F : Type} `{PyFloat F}
  (extractOne : string -> list string -> option (string * F))
  (norm : string) (group : string * list string) : bool :=
  match extractOne norm (fst group :: snd group) with
  | Some (_, score) => fle (of_int FUZZY_MATCH_THRESHOLD) score
  | None => false
  end.

(** The distinct keys of a list, in the order of their first occurrence. *)
Fixpoint first_seen (keys : list (string * string)) : list (string * string) :=
  match keys with
  | [] => []
  | k :: rest =>
      k :: List.filter (fun k' => negb (key_eqb k' k)) (first_seen rest)
  end.

(** Inputs for the examples: a scorer that gives 100 when the name is
    among the choices; quotations with exact odds; a page on which every
    selector selects one element whose text is the selector itself, the
    page being its own single container. *)
Module Sample.

Definition exact_scorer (norm : string) (choices : list string)
  : option (string * float) :=
  match choices with
  | [] => None
  | c :: _ =>
      Some (c, if existsb (String.eqb norm) choices then 100 else 0)%float
  end.

Definition quote (src a b : string) (o1 o2 : Q) : EventOdds Q :=
  {| match_id := "pw-" ++ a ++ "-" ++ b; site := src; sport := "CS2";
     league := None; start_time := None; team1 := a; team2 := b;
     odds_team1 := o1; odds_team2 := o2; raw := [] |}.

Definition quotations : list (EventOdds Q) :=
  [quote "S1" "Team A" "Team B" (21 # 10) (9 # 5);
   quote "S2" "team a" "team b" (39 # 20) (41 # 20)].

Definition late : EventOdds Q := quote "S3" "A" "B" (11 # 5) (19 # 10).

Definition no_scorer (norm : string) (choices : list string)
  : option (string * Q) := None.

Definition soup (html : string) : string := html.

Definition select (nd : string) (sel : string) : option (list string) :=
  Some [nd].

Definition select_one (nd : string) (sel : string) : option (option string) :=
  Some (Some sel).

Definition get_text (el : string) : string := el.

Definition dt_parse (txt : string) : option Z := None.

Definition page_content (url : string) : option string := Some url.

Definition adapter (name a b o1 o2 : string) : Adapter :=
  {| url := "https://" ++ name; site_name := name;
     selectors := [("containers", ["row"]); ("team1", [a]); ("team2", [b]);
                   ("odds1", [o1]); ("odds2", [o2])];
     wait_selector := None |}.

Definition adapters : list Adapter :=
  [adapter "S1" "Team A" "Team B" "2.10" "1,80";
   adapter "S2" "team a" "team b" "1.95" "2.05"].

End Sample.

(** ** The end-to-end scenario of the specification *)

Module Scenario.
Import Binary64.
Local Open Scope float_scope.

Definition quote (src a b : string) (o1 o2 : float) : EventOdds float :=
  {| match_id := "pw-" ++ a ++ "-" ++ b; site := src; sport := "CS2";
     league := None; start_time := None; team1 := a; team2 := b;
     odds_team1 := o1; odds_team2 := o2; raw := [] |}.

Definition S1 : EventOdds float := quote "S1" "Team A" "Team B" 2.10 1.80.
Definition S2 : EventOdds float := quote "S2" "team a esports" "B" 1.95 2.05.
Definition S3 : EventOdds float := quote "S3" "A" "b Esport" 1.90 1.95.

Definition events : list (EventOdds float) := [S1; S2; S3].

(** No scorer is consulted when the alias table is empty. *)
Definition no_scorer (norm : string) (choices : list string)
  : option (string * float) := None.

(** [|x - v| <= tol] *)
Definition approx (x v tol : float) : bool := PrimFloat.leb (abs (x - v)) tol.

End Scenario.

(** ** Checks of the model on known values *)

Example normalize_team_liquid : normalize_team "Team Liquid" = "liquid".
Proof. reflexivity. Qed.

Example normalize_team_spaces : normalize_team "  NaVi eSports  " = "navi".
Proof. reflexivity. Qed.

Example sorted_strings : sorted ["b"; "a"; "c"; "a"] = ["a"; "a"; "b"; "c"].
Proof. reflexivity. Qed.

Example replace_no_overlap : replace "aa" "x" "aaaaa" = "xxa".
Proof. reflexivity. Qed.

Example round_binary64 :
  (Binary64.round 2.675 2 = 2.67 /\ Binary64.round 0.5 0 = 0 /\
   Binary64.round 1.5 0 = 2 /\ Binary64.round (-0.001) 2 = (-0) /\
   Binary64.round 1e300 2 = 1e300 /\ Binary64.round infinity 2 = infinity)%float.
Proof. repeat split; vm_compute; reflexivity. Qed.

Example stake_split_even :
  stake_split 100%float 2%float 2%float = Ok (50, 50, 50)%float.
Proof. vm_compute. reflexivity. Qed.

(** ** Strings: lemmas *)

Module StrFacts.

Lemma is_space_lower_char (c : ascii) : is_space (lower_char c) = is_space c.
Proof. destruct c as [[] [] [] [] [] [] [] []]; reflexivity. Qed.

Lemma lower_char_idem (c : ascii) : lower_char (lower_char c) = lower_char c.
Proof. destruct c as [[] [] [] [] [] [] [] []]; reflexivity. Qed.

Lemma lower_idem (s : string) : lower (lower s) = lower s.
Proof.
  induction s as [|c s IH]; simpl; [reflexivity|].
  now rewrite lower_char_idem, IH.
Qed.

Lemma lower_lstrip (s : string) : lower (lstrip s) = lstrip (lower s).
Proof.
  induction s as [|c s IH]; simpl; [reflexivity|].
  rewrite is_space_lower_char. destruct (is_space c); [exact IH | reflexivity].
Qed.

Lemma lower_rstrip (s : string) : lower (rstrip s) = rstrip (lower s).
Proof.
  induction s as [|c s IH]; simpl; [reflexivity|].
  rewrite <- IH, is_space_lower_char.
  destruct (rstrip s); simpl; [destruct (is_space c)|]; reflexivity.
Qed.

Lemma lower_strip (s : string) : lower (strip s) = strip (lower s).
Proof. unfold strip. now rewrite lower_rstrip, lower_lstrip. Qed.

(** Replacing by the empty string only deletes characters. *)
Lemma lower_delete (old : string) (s : string) :
  lower s = s -> forall k, lower (replace_from old "" k s) = replace_from old "" k s.
Proof.
  induction s as [|c s IH]; intros Hs k; [reflexivity|].
  cbn [lower] in Hs. injection Hs as Hc Hs'. cbn [replace_from].
  destruct k as [|k]; [|now apply IH].
  destruct (prefix old (String c s)); [cbn [append]; now apply IH|].
  cbn [lower]. now rewrite Hc, IH.
Qed.

Lemma lower_strip_fillers (s : string) :
  lower s = s -> lower (strip_fillers s) = strip_fillers s.
Proof.
  intros Hs. unfold strip_fillers, replace.
  now repeat apply lower_delete.
Qed.

Lemma lower_normalize_team (s : string) :
  lower (normalize_team s) = normalize_team s.
Proof.
  unfold normalize_team. rewrite lower_strip. f_equal.
  apply lower_strip_fillers, lower_idem.
Qed.

Lemma rstrip_idem (s : string) : rstrip (rstrip s) = rstrip s.
Proof.
  induction s as [|c s IH]; simpl; [reflexivity|].
  destruct (rstrip s) as [|d r] eqn:E.
  - destruct (is_space c) eqn:Ec; simpl; [reflexivity | now rewrite Ec].
  - change (rstrip (String c (String d r))) with
      (match rstrip (String d r) with
       | EmptyString => if is_space c then EmptyString else String c EmptyString
       | r' => String c r'
       end).
    now rewrite IH.
Qed.

Lemma clean_start_lstrip (s : string) : clean_start (lstrip s).
Proof.
  induction s as [|c s IH]; simpl; [exact I|].
  destruct (is_space c) eqn:E; [exact IH | exact E].
Qed.

Lemma lstrip_clean (s : string) : clean_start s -> lstrip s = s.
Proof. destruct s as [|c s]; simpl; [reflexivity | now intros ->]. Qed.

Lemma clean_start_rstrip (s : string) : clean_start s -> clean_start (rstrip s).
Proof.
  destruct s as [|c s]; simpl; [exact (fun H => H)|]. intros Hc.
  destruct (rstrip s); [rewrite Hc|]; exact Hc.
Qed.

Lemma strip_idem (s : string) : strip (strip s) = strip s.
Proof.
  unfold strip.
  rewrite (lstrip_clean (rstrip (lstrip s))).
  - apply rstrip_idem.
  - apply clean_start_rstrip, clean_start_lstrip.
Qed.

Lemma replace_absent (old new s : string) :
  contains old s = false -> replace old new s = s.
Proof.
  unfold replace. induction s as [|c s IH]; [reflexivity|].
  cbn [contains replace_from]. intros H.
  apply orb_false_iff in H as [Hp Hc]. rewrite Hp. now rewrite IH.
Qed.

Lemma prefix_app (a b s : string) :
  prefix (a ++ b) s = true -> prefix a s = true.
Proof.
  revert s. induction a as [|c a IH]; intros s H.
  - now destruct s.
  - destruct s as [|d s]; [discriminate|]. simpl in *.
    destruct (ascii_dec c d); [now apply IH | discriminate].
Qed.

Lemma contains_app (a b s : string) :
  contains a s = false -> contains (a ++ b) s = false.
Proof.
  induction s as [|c s IH]; cbn [contains]; intros H;
    apply orb_false_iff in H as [Hp Hc]; apply orb_false_iff; split;
    try (destruct (prefix (a ++ b) _) eqn:E; [|reflexivity];
         apply prefix_app in E; congruence);
    [reflexivity | now apply IH].
Qed.

Lemma strip_blank (s : string) : blank s = true -> strip s = "".
Proof.
  unfold strip. induction s as [|c s IH]; simpl; [reflexivity|].
  intros H. apply andb_true_iff in H as [Hc Hs]. rewrite Hc. now apply IH.
Qed.

Lemma ltb_asym (a b : string) : String.ltb a b = true -> String.ltb b a = false.
Proof.
  unfold String.ltb. rewrite (String.compare_antisym a b).
  now destruct (String.compare b a).
Qed.

Lemma ltb_total (a b : string) :
  String.ltb a b = false -> String.ltb b a = false -> a = b.
Proof.
  unfold String.ltb. rewrite (String.compare_antisym a b).
  destruct (String.compare b a) eqn:E; simpl; try discriminate.
  intros _ _. symmetry. now apply String.compare_eq_iff.
Qed.

Lemma sorted_pair_eq (a b : string) :
  sorted_pair a b = if String.ltb b a then (b, a) else (a, b).
Proof.
  unfold sorted_pair, sorted. simpl. now destruct (String.ltb b a).
Qed.

Lemma sorted_pair_comm (a b : string) : sorted_pair a b = sorted_pair b a.
Proof.
  rewrite !sorted_pair_eq.
  destruct (String.ltb b a) eqn:Eba, (String.ltb a b) eqn:Eab; try reflexivity.
  - apply ltb_asym in Eba. congruence.
  - now rewrite (ltb_total a b Eab Eba).
Qed.

Lemma sorted_pair_ordered (a b : string) :
  String.ltb (snd (sorted_pair a b)) (fst (sorted_pair a b)) = false.
Proof.
  rewrite sorted_pair_eq. destruct (String.ltb b a) eqn:E; simpl.
  - now apply ltb_asym.
  - exact E.
Qed.

End StrFacts.

(** ** Name normalisation *)

Import StrFacts.

Lemma strip_fillers_absent (s : string) :
  has_filler s = false -> strip_fillers s = s.
Proof.
  unfold has_filler, strip_fillers. intros H.
  apply orb_false_iff in H as [He Ht].
  rewrite (replace_absent "esports" "" s (contains_app "esport" "s" s He)).
  rewrite (replace_absent "esport" "" s He).
  now apply replace_absent.
Qed.

Lemma normalize_team_lower (s : string) :
  normalize_team (lower s) = normalize_team s.
Proof.
  unfold normalize_team. now rewrite <- lower_strip, lower_idem.
Qed.

Lemma normalize_team_fixed (t : string) :
  lower t = t -> strip t = t -> has_filler t = false -> normalize_team t = t.
Proof.
  intros Hl Hs Hf. unfold normalize_team.
  now rewrite Hs, Hl, (strip_fillers_absent t Hf).
Qed.

Lemma strip_normalize_team (s : string) :
  strip (normalize_team s) = normalize_team s.
Proof. unfold normalize_team. apply strip_idem. Qed.

(** C4 (as stated, refuted): removing "team" from "teteamam" leaves "team",
    which a second pass removes, so [normalize_team] is not idempotent. *)
Lemma normalize_team_not_idempotent :
  normalize_team "teteamam" = "team" /\
  normalize_team (normalize_team "teteamam") = "" /\
  normalize_team (normalize_team "teteamam") <> normalize_team "teteamam".
Proof. repeat split. discriminate. Qed.

(** C4 (amended): [normalize_team] is case-insensitive on every string, it
    sends "Team Liquid" and "liquid" to the same name, and it is idempotent
    on every string whose normal form contains no filler token. *)
Theorem normalize_team_case_insensitive (s : string) :
  normalize_team (lower s) = normalize_team s /\
  normalize_team "Team Liquid" = normalize_team "liquid" /\
  (has_filler (normalize_team s) = false ->
   normalize_team (normalize_team s) = normalize_team s).
Proof.
  split; [apply normalize_team_lower|]. split; [reflexivity|].
  intros Hf. apply normalize_team_fixed.
  - apply lower_normalize_team.
  - apply strip_normalize_team.
  - exact Hf.
Qed.

Lemma normalize_team_case_insensitive_witness :
  has_filler (normalize_team "Team Liquid") = false /\
  normalize_team (normalize_team "Team Liquid") = normalize_team "Team Liquid".
Proof.
  split; [reflexivity|].
  apply (normalize_team_case_insensitive "Team Liquid"). reflexivity.
Defined.

Lemma normalize_team_blank (raw : string) :
  blank (strip_fillers (lower (strip raw))) = true -> normalize_team raw = "".
Proof. intros Hb. unfold normalize_team. now apply strip_blank. Qed.

Example normalize_team_only_fillers :
  normalize_team "Team" = "" /\ normalize_team "Esports" = "" /\
  normalize_team "Team Esports" = "".
Proof. repeat split. Qed.

Section EngineFacts.

Context {F : Type} `{PyFloat F}.
Variable table : list (string * list string).
Variable extractOne : string -> list string -> option (string * F).

Lemma alias_lookup_normal (a b : string) :
  normalize_team a = normalize_team b ->
  alias_lookup table extractOne a = alias_lookup table extractOne b.
Proof. unfold alias_lookup. now intros ->. Qed.

Lemma alias_lookup_shipped (a : string) :
  alias_lookup ALIASES extractOne a = normalize_team a.
Proof. reflexivity. Qed.

(** C8: the key of a quotation does not depend on the order in which its two
    participants are listed, both for [group_by_match] and for
    [EventOdds.teams_key]; it is the sorted pair of the two canonical
    names. *)
Theorem match_key_order_independent (A B : string) (q1 q2 : EventOdds F)
  (H1 : team1 q1 = A) (H2 : team2 q1 = B)
  (H3 : team1 q2 = B) (H4 : team2 q2 = A) :
  match_key table extractOne q1 = match_key table extractOne q2 /\
  teams_key q1 = teams_key q2 /\
  (let cA := alias_lookup table extractOne A in
   let cB := alias_lookup table extractOne B in
   let k := match_key table extractOne q1 in
   (k = (cA, cB) \/ k = (cB, cA)) /\ String.ltb (snd k) (fst k) = false).
Proof.
  unfold match_key, pair_key, teams_key. rewrite H1, H2, H3, H4.
  split; [apply sorted_pair_comm|]. split; [apply sorted_pair_comm|].
  cbv zeta. split.
  - rewrite sorted_pair_eq. destruct (String.ltb _ _); auto.
  - apply sorted_pair_ordered.
Qed.

(** C10: a raw name that is blank once trimmed, lowercased and freed of the
    filler tokens normalises to the empty string; two such names get the
    same canonical identity (the empty one under the shipped alias table),
    and quotations that differ only in such names get the same key. *)
Theorem normalize_team_empty_collision (raw1 raw2 : string)
  (H1 : blank (strip_fillers (lower (strip raw1))) = true)
  (H2 : blank (strip_fillers (lower (strip raw2))) = true) :
  normalize_team raw1 = "" /\ normalize_team raw2 = "" /\
  alias_lookup ALIASES extractOne raw1 = "" /\
  alias_lookup table extractOne raw1 = alias_lookup table extractOne raw2 /\
  (forall other : string,
     pair_key table extractOne raw1 other = pair_key table extractOne raw2 other) /\
  (forall q1 q2 : EventOdds F,
     team1 q1 = raw1 -> team1 q2 = raw2 -> team2 q1 = team2 q2 ->
     match_key table extractOne q1 = match_key table extractOne q2).
Proof.
  pose proof (normalize_team_blank raw1 H1) as E1.
  pose proof (normalize_team_blank raw2 H2) as E2.
  assert (Ea : alias_lookup table extractOne raw1 = alias_lookup table extractOne raw2)
    by (apply alias_lookup_normal; congruence).
  split; [exact E1|]. split; [exact E2|].
  split; [now rewrite alias_lookup_shipped|]. split; [exact Ea|]. split.
  - intros other. unfold pair_key. now rewrite Ea.
  - intros q1 q2 T1 T2 T3. unfold match_key, pair_key.
    now rewrite T1, T2, T3, Ea.
Qed.

End EngineFacts.

Lemma match_key_order_independent_witness :
  match_key ALIASES Scenario.no_scorer
    (Scenario.quote "S1" "Team B" "Team A" 2.10 1.80) =
  match_key ALIASES Scenario.no_scorer
    (Scenario.quote "S2" "Team A" "Team B" 1.95 2.05).
Proof.
  apply (match_key_order_independent ALIASES Scenario.no_scorer
           "Team B" "Team A"
           (Scenario.quote "S1" "Team B" "Team A" 2.10 1.80)
           (Scenario.quote "S2" "Team A" "Team B" 1.95 2.05));
    reflexivity.
Defined.

Lemma normalize_team_empty_collision_witness :
  "Team" <> "Esports" /\
  normalize_team "Team" = "" /\ normalize_team "Esports" = "" /\
  match_key ALIASES Scenario.no_scorer
    (Scenario.quote "S1" "Team" "Navi" 2.10 1.80) =
  match_key ALIASES Scenario.no_scorer
    (Scenario.quote "S2" "Esports" "Navi" 1.95 2.05).
Proof.
  pose proof (normalize_team_empty_collision ALIASES Scenario.no_scorer
                "Team" "Esports" eq_refl eq_refl) as (E1 & E2 & _ & _ & _ & K).
  split; [discriminate|]. split; [exact E1|]. split; [exact E2|].
  apply K; reflexivity.
Defined.

(** ** Grouping *)

Section Grouping.

Context {F : Type} `{PyFloat F}.
Variable table : list (string * list string).
Variable extractOne : string -> list string -> option (string * F).

Local Open Scope list_scope.

Local Abbreviation key := (match_key table extractOne).
Local Abbreviation bucket_of k := (filter (fun ev => key_eqb (key ev) k)).

Lemma key_eqb_eq (k k' : string * string) : key_eqb k k' = true <-> k = k'.
Proof.
  destruct k as [a b], k' as [a' b']. unfold key_eqb; simpl.
  rewrite andb_true_iff, !String.eqb_eq. split.
  - now intros [-> ->].
  - intros E. now inversion E.
Qed.

Lemma key_eqb_neq (k k' : string * string) : key_eqb k k' = false <-> k <> k'.
Proof.
  rewrite <- key_eqb_eq. destruct (key_eqb k k'); split; congruence.
Qed.

Lemma key_dec (k k' : string * string) : {k = k'} + {k <> k'}.
Proof. decide equality; apply string_dec. Qed.

Lemma setdefault_append_new k (ev : EventOdds F) g :
  ~ In k (map fst g) -> setdefault_append k ev g = g ++ [(k, [ev])].
Proof.
  induction g as [|[k' l] g IH]; simpl; intros Hk; [reflexivity|].
  destruct (key_eqb k k') eqn:E.
  - apply key_eqb_eq in E. subst. tauto.
  - rewrite IH; [reflexivity | tauto].
Qed.

Lemma setdefault_append_old k (ev : EventOdds F) g :
  In k (map fst g) ->
  exists g1 l g2,
    g = g1 ++ (k, l) :: g2 /\
    setdefault_append k ev g = g1 ++ (k, l ++ [ev]) :: g2.
Proof.
  induction g as [|[k' l] g IH]; simpl; intros Hk; [contradiction|].
  destruct (key_eqb k k') eqn:E.
  - apply key_eqb_eq in E. subst k'. now exists [], l, g.
  - destruct Hk as [Hk|Hk]; [apply key_eqb_neq in E; congruence|].
    destruct (IH Hk) as (g1 & l0 & g2 & -> & ->).
    now exists ((k', l) :: g1), l0, g2.
Qed.

(** What holds of the buckets after the events [seen] have been added. *)
Lemma setdefault_append_keeps g seen (ev : EventOdds F) :
  NoDup (map fst g) ->
  (forall k l, In (k, l) g -> l <> [] /\ l = bucket_of k seen) ->
  Permutation (concat (map snd g)) seen ->
  let g' := setdefault_append (key ev) ev g in
  NoDup (map fst g') /\
  (forall k l, In (k, l) g' -> l <> [] /\ l = bucket_of k (seen ++ [ev])) /\
  Permutation (concat (map snd g')) (seen ++ [ev]).
Proof.
  intros Hnd Hb Hp g'.
  assert (Hseen : forall e, In e seen -> In (key e) (map fst g)).
  { intros e He. apply (Permutation_in e (Permutation_sym Hp)) in He.
    apply in_concat in He as (l & Hl & Hel).
    apply in_map_iff in Hl as ([k l'] & El & Hkl). simpl in El. subst l'.
    destruct (Hb k l Hkl) as [_ ->].
    apply filter_In in Hel as [_ Ek]. apply key_eqb_eq in Ek. rewrite Ek.
    apply in_map_iff. now exists (k, bucket_of k seen). }
  assert (Hother : forall k, k <> key ev ->
            bucket_of k (seen ++ [ev]) = bucket_of k seen).
  { intros k Hk. rewrite filter_app. simpl.
    replace (key_eqb (key ev) k) with false; [apply app_nil_r|].
    symmetry. apply key_eqb_neq. congruence. }
  assert (Hsame : bucket_of (key ev) (seen ++ [ev]) = bucket_of (key ev) seen ++ [ev]).
  { rewrite filter_app. simpl.
    replace (key_eqb (key ev) (key ev)) with true; [reflexivity|].
    symmetry. now apply key_eqb_eq. }
  destruct (in_dec key_dec (key ev) (map fst g))
    as [Hin|Hout]; subst g'.
  - destruct (setdefault_append_old (key ev) ev g Hin) as (g1 & l & g2 & Eg & ->).
    subst g. rewrite !map_app in *. simpl in *.
    split; [exact Hnd|]. split.
    + intros k l' Hkl. apply in_app_or in Hkl as [Hkl|[Hkl|Hkl]].
      * assert (Hk : k <> key ev).
        { intros ->. apply NoDup_remove_2 in Hnd. apply Hnd, in_or_app. left.
          apply in_map_iff. now exists (key ev, l'). }
        rewrite (Hother k Hk). apply Hb, in_or_app. now left.
      * inversion Hkl; subst. split; [now destruct l|].
        rewrite Hsame. f_equal. apply Hb, in_or_app. right. now left.
      * assert (Hk : k <> key ev).
        { intros ->. apply NoDup_remove_2 in Hnd. apply Hnd, in_or_app. right.
          apply in_map_iff. now exists (key ev, l'). }
        rewrite (Hother k Hk). apply Hb, in_or_app. right. now right.
    + rewrite !concat_app in *. simpl in *.
      transitivity ((concat (map snd g1) ++ l ++ concat (map snd g2)) ++ [ev]);
        [|now apply Permutation_app_tail].
      rewrite <- !app_assoc. do 2 apply Permutation_app_head.
      apply (Permutation_app_comm [ev]).
  - rewrite (setdefault_append_new (key ev) ev g Hout).
    rewrite !map_app, concat_app. simpl.
    split; [|split].
    + apply NoDup_app_remove_l with (l := []). simpl.
      apply Permutation_NoDup with (l := key ev :: map fst g).
      * apply Permutation_cons_append.
      * now constructor.
    + intros k l Hkl. apply in_app_or in Hkl as [Hkl|[Hkl|[]]].
      * assert (Hk : k <> key ev).
        { intros ->. apply Hout, in_map_iff. now exists (key ev, l). }
        rewrite (Hother k Hk). now apply Hb.
      * inversion Hkl; subst. split; [discriminate|].
        rewrite Hsame.
        replace (bucket_of (key ev) seen) with (@nil (EventOdds F)); [reflexivity|].
        symmetry. destruct (bucket_of (key ev) seen) as [|e r] eqn:E; [reflexivity|].
        assert (He : In e (bucket_of (key ev) seen)) by (rewrite E; now left).
        apply filter_In in He as [He Ek]. apply key_eqb_eq in Ek.
        exfalso. apply Hout. rewrite <- Ek. now apply Hseen.
    + now apply Permutation_app_tail.
Qed.

Lemma group_by_match_snoc (events : list (EventOdds F)) (ev : EventOdds F) :
  group_by_match table extractOne (events ++ [ev]) =
  setdefault_append (key ev) ev (group_by_match table extractOne events).
Proof. unfold group_by_match. now rewrite fold_left_app. Qed.

Lemma group_by_match_buckets (events : list (EventOdds F)) :
  let g := group_by_match table extractOne events in
  NoDup (map fst g) /\
  (forall k l, In (k, l) g -> l <> [] /\ l = bucket_of k events) /\
  Permutation (concat (map snd g)) events.
Proof.
  induction events as [|ev events IH] using rev_ind.
  - simpl. split; [constructor|]. split; [intros k l []|constructor].
  - rewrite group_by_match_snoc. destruct IH as (Hnd & Hb & Hp).
    now apply setdefault_append_keeps.
Qed.

(** C9: [group_by_match] partitions its input.  The keys of the result are
    distinct, each bucket is non-empty and holds exactly the input
    quotations with its key, in input order; so every input quotation is in
    the bucket of its key and in no other, the buckets together are a
    rearrangement of the input, and their sizes add up to its length. *)
Theorem group_by_match_partition (events : list (EventOdds F)) :
  let g := group_by_match table extractOne events in
  NoDup (map fst g) /\
  (forall k l, In (k, l) g -> l <> [] /\ l = bucket_of k events) /\
  (forall ev, In ev events -> exists l, In (key ev, l) g /\ In ev l) /\
  (forall ev k l, In (k, l) g -> In ev l -> k = key ev) /\
  Permutation (concat (map snd g)) events /\
  list_sum (map (fun b => length (snd b)) g) = length events.
Proof.
  intros g. destruct (group_by_match_buckets events) as (Hnd & Hb & Hp).
  fold g in Hnd, Hb, Hp.
  assert (Hone : forall ev k l, In (k, l) g -> In ev l -> k = key ev).
  { intros ev k l Hkl Hev. destruct (Hb k l Hkl) as [_ El]. rewrite El in Hev.
    apply filter_In in Hev as [_ Ek]. symmetry. now apply key_eqb_eq. }
  split; [exact Hnd|]. split; [exact Hb|]. split; [|split; [exact Hone|split]].
  - intros ev Hev. apply (Permutation_in ev (Permutation_sym Hp)) in Hev.
    apply in_concat in Hev as (l & Hl & Hel).
    apply in_map_iff in Hl as ([k l'] & El & Hkl). simpl in El. subst l'.
    exists l. split; [|exact Hel]. now rewrite <- (Hone ev k l Hkl Hel).
  - exact Hp.
  - rewrite <- (Permutation_length Hp), length_concat, map_map. reflexivity.
Qed.

End Grouping.

(** ** Order on binary64 *)

Module Binary64Facts.

Ltac split_compare :=
  repeat match goal with
  | H : context [Z.compare ?x ?y] |- _ => destruct (Z.compare_spec x y); simpl in H
  | |- context [Z.compare ?x ?y] => destruct (Z.compare_spec x y); simpl
  | H : context [Pos.compare_cont Eq ?x ?y] |- _ =>
      change (Pos.compare_cont Eq x y) with (Pos.compare x y) in H;
      destruct (Pos.compare_spec x y); simpl in H
  | |- context [Pos.compare_cont Eq ?x ?y] =>
      change (Pos.compare_cont Eq x y) with (Pos.compare x y);
      destruct (Pos.compare_spec x y); simpl
  end.

Ltac by_cases :=
  simpl in *; try discriminate; try reflexivity;
  split_compare; subst; try discriminate; try reflexivity; try lia.

Lemma SFcompare_lt_irrefl (a : spec_float) : SFcompare a a <> Some Lt.
Proof. destruct a as [[]|[]| |[] m e]; by_cases. Qed.

Lemma SFcompare_lt_trans (a b c : spec_float) :
  SFcompare a b = Some Lt -> SFcompare b c = Some Lt -> SFcompare a c = Some Lt.
Proof.
  destruct a as [[]|[]| |[] ma ea], b as [[]|[]| |[] mb eb],
    c as [[]|[]| |[] mc ec]; intros Hab Hbc; by_cases.
Qed.

Lemma SFcompare_le_not_gt (a b : spec_float) :
  SFleb a b = true -> SFltb b a = false.
Proof.
  unfold SFleb, SFltb.
  destruct a as [[]|[]| |[] ma ea], b as [[]|[]| |[] mb eb]; intros Hab; by_cases.
Qed.

(** Between two values that are not NaN, "not below" is "at least". *)
Lemma SFcompare_not_lt_ge (a b : spec_float) :
  SFeqb a a = true -> SFeqb b b = true -> SFltb a b = false -> SFleb b a = true.
Proof.
  unfold SFeqb, SFltb, SFleb.
  destruct a as [[]|[]| |[] ma ea], b as [[]|[]| |[] mb eb]; intros Ha Hb Hab;
    by_cases.
Qed.

Lemma ltb_irrefl (x : float) : PrimFloat.ltb x x = false.
Proof.
  rewrite FloatAxioms.ltb_spec. unfold SFltb.
  pose proof (SFcompare_lt_irrefl (Prim2SF x)) as Hx.
  destruct (SFcompare (Prim2SF x) (Prim2SF x)) as [[]|]; congruence.
Qed.

Lemma ltb_trans (x y z : float) :
  PrimFloat.ltb x y = true -> PrimFloat.ltb y z = true -> PrimFloat.ltb x z = true.
Proof.
  rewrite !FloatAxioms.ltb_spec. unfold SFltb. intros Hxy Hyz.
  rewrite (SFcompare_lt_trans (Prim2SF x) (Prim2SF y) (Prim2SF z)); [reflexivity| |].
  - destruct (SFcompare (Prim2SF x) (Prim2SF y)) as [[]|]; congruence.
  - destruct (SFcompare (Prim2SF y) (Prim2SF z)) as [[]|]; congruence.
Qed.

Lemma leb_not_ltb (x y : float) :
  PrimFloat.leb x y = true -> PrimFloat.ltb y x = false.
Proof. rewrite FloatAxioms.leb_spec, FloatAxioms.ltb_spec. apply SFcompare_le_not_gt. Qed.

Lemma not_ltb_leb (x y : float) :
  PrimFloat.eqb x x = true -> PrimFloat.eqb y y = true ->
  PrimFloat.ltb x y = false -> PrimFloat.leb y x = true.
Proof.
  rewrite !FloatAxioms.eqb_spec, FloatAxioms.leb_spec, FloatAxioms.ltb_spec.
  apply SFcompare_not_lt_ge.
Qed.

End Binary64Facts.

(** ** Detection *)

Section MaxFacts.

Context {F : Type} `{PyFloat F}.
Hypothesis flt_irrefl : forall x : F, flt x x = false.
Hypothesis flt_trans :
  forall x y z : F, flt x y = true -> flt y z = true -> flt x z = true.

Variable A : Type.
Variable key : A -> F.

Lemma py_max_step (best x : A) (rest : list A) :
  py_max key best (x :: rest) =
  py_max key (if flt (key best) (key x) then x else best) rest.
Proof. reflexivity. Qed.

Lemma py_max_in (rest : list A) :
  forall best, In (py_max key best rest) (best :: rest).
Proof.
  induction rest as [|x rest IH]; intros best; [now left|].
  rewrite py_max_step.
  destruct (IH (if flt (key best) (key x) then x else best)) as [E|E].
  - rewrite <- E. destruct (flt (key best) (key x)); [right|]; now left.
  - right. now right.
Qed.

Lemma py_max_dominates (rest : list A) :
  forall best e,
    flt (key best) (key e) = false \/ In e rest ->
    flt (key (py_max key best rest)) (key e) = false.
Proof.
  induction rest as [|x rest IH]; intros best e He.
  - destruct He as [He|[]]. exact He.
  - rewrite py_max_step. apply IH.
    destruct He as [He|[<-|He]]; [left|left|now right].
    + destruct (flt (key best) (key x)) eqn:Ex; [|exact He].
      destruct (flt (key x) (key e)) eqn:Exe; [|reflexivity].
      rewrite (flt_trans _ _ _ Ex Exe) in He. discriminate.
    + destruct (flt (key best) (key x)) eqn:Ex; [apply flt_irrefl | exact Ex].
Qed.

Lemma py_max_greatest (first : A) (rest : list A) (e : A) :
  In e (first :: rest) -> flt (key (py_max key first rest)) (key e) = false.
Proof.
  intros [<-|He]; apply py_max_dominates; [left; apply flt_irrefl | now right].
Qed.

End MaxFacts.

Section DetectFacts.

Context {F : Type} `{PyFloat F}.

Lemma detect_empty : detect_two_way_arbitrage (@nil (EventOdds F)) = Ok None.
Proof. reflexivity. Qed.

Lemma detect_single (e : EventOdds F) :
  detect_two_way_arbitrage [e] =
  (i1 <- implied_prob (odds_team1 e) ;;
   i2 <- implied_prob (odds_team2 e) ;;
   let p_sum := fadd i1 i2 in
   if flt p_sum (of_int 1) then
     Ok (Some {| arb_team1 := team1 e; arb_team2 := team2 e;
                 site_team1 := site e; site_team2 := site e;
                 arb_odds_team1 := odds_team1 e; arb_odds_team2 := odds_team2 e;
                 prob_sum := p_sum; margin := fsub (of_int 1) p_sum |})
   else Ok None)%result.
Proof. reflexivity. Qed.

(** C2 (amended): [detect_two_way_arbitrage] returns none on the empty
    bucket; a bucket of fewer than two quotations is skipped by the loop of
    [run] before detection, so it yields no row there; called directly on a
    single quotation, detection applies the test [p_sum < 1] to that
    quotation's own two odds. *)
Theorem small_bucket_skipped (total_stake : F) (key : string * string)
  (booklines : list (EventOdds F)) (Hsmall : (List.length booklines < 2)%nat) :
  detect_two_way_arbitrage (@nil (EventOdds F)) = Ok None /\
  settle_bucket total_stake key booklines = Ok None /\
  (forall rest log, settle total_stake ((key, booklines) :: rest) log
                    = settle total_stake rest log) /\
  (forall e, booklines = [e] ->
     detect_two_way_arbitrage booklines =
     (i1 <- implied_prob (odds_team1 e) ;;
      i2 <- implied_prob (odds_team2 e) ;;
      if flt (fadd i1 i2) (of_int 1) then
        Ok (Some {| arb_team1 := team1 e; arb_team2 := team2 e;
                    site_team1 := site e; site_team2 := site e;
                    arb_odds_team1 := odds_team1 e;
                    arb_odds_team2 := odds_team2 e;
                    prob_sum := fadd i1 i2;
                    margin := fsub (of_int 1) (fadd i1 i2) |})
      else Ok None)%result).
Proof.
  assert (Hs : settle_bucket total_stake key booklines = Ok None).
  { unfold settle_bucket. apply Nat.ltb_lt in Hsmall. now rewrite Hsmall. }
  split; [reflexivity|]. split; [exact Hs|]. split.
  - intros rest log. cbn [settle]. now rewrite Hs.
  - intros e ->. apply detect_single.
Qed.

End DetectFacts.

Module DetectBinary64.
Import Binary64Facts.
Local Open Scope float_scope.

Lemma one_is_1 : @of_int float Binary64.binary64 1 = 1.
Proof. reflexivity. Qed.

Lemma implied_prob_nonzero (odds : float) :
  PrimFloat.eqb odds 0 = false -> implied_prob odds = Ok (1 / odds).
Proof.
  intros Hz. unfold implied_prob. cbn [fdiv Binary64.binary64]. unfold Binary64.div.
  now rewrite Hz, one_is_1.
Qed.

Lemma implied_prob_zero (odds : float) :
  PrimFloat.eqb odds 0 = true -> implied_prob odds = Raise ZeroDivisionError.
Proof.
  intros Hz. unfold implied_prob. cbn [fdiv Binary64.binary64]. unfold Binary64.div.
  now rewrite Hz.
Qed.

(** C2 (as stated, refuted): a bucket holding the single quotation 3.0/3.0
    makes [detect_two_way_arbitrage] return an opportunity. *)
Lemma detect_single_quotation_hit :
  let bucket := [Scenario.quote "S1" "A" "B" 3 3] in
  List.length bucket = 1%nat /\
  detect_two_way_arbitrage bucket <> Ok None /\
  exists arb, detect_two_way_arbitrage bucket = Ok (Some arb) /\
              site_team1 arb = "S1" /\ site_team2 arb = "S1".
Proof.
  split; [reflexivity|]. split; [vm_compute; discriminate|].
  eexists. split; [vm_compute; reflexivity|]. split; reflexivity.
Qed.

Lemma small_bucket_skipped_witness :
  settle_bucket 400 ("a", "b") [Scenario.quote "S1" "A" "B" 3 3] = Ok None.
Proof.
  apply (small_bucket_skipped 400 ("a", "b") [Scenario.quote "S1" "A" "B" 3 3]).
  simpl. lia.
Defined.



End DetectBinary64.

(** ** The end-to-end scenario *)

Module ScenarioFacts.
Import Scenario.
Local Open Scope float_scope.

(** C1 (as stated, refuted): on the three quotations the reported sum of
    implied probabilities is not within 0.01 of 0.9517, the margin is not
    within one percentage point of 4.83%, and no value returned by
    [stake_split 400 2.10 2.05] is within 1 of 202.96, 197.04 or 26.22. *)
Lemma scenario_figures_differ :
  exists arb s1 s2 profit,
    detect_two_way_arbitrage events = Ok (Some arb) /\
    stake_split 400 2.10 2.05 = Ok (s1, s2, profit) /\
    approx (prob_sum arb) 0.9517 0.01 = false /\
    approx (margin arb * 100) 4.83 1 = false /\
    approx s1 202.96 1 = false /\
    approx s2 197.04 1 = false /\
    approx profit 26.22 1 = false.
Proof.
  do 4 eexists. split; [vm_compute; reflexivity|].
  split; [vm_compute; reflexivity|].
  repeat split; vm_compute; reflexivity.
Qed.

(** C1 (amended): the three quotations fall into the one bucket ("a", "b");
    detection selects S1 at 2.10 for side 1 and S2 at 2.05 for side 2, with
    a probability sum of 0.9640 and a margin of 3.60% to the printed
    precision; [stake_split 400 2.10 2.05] returns the stakes 197.59 and
    202.41 and the profit figure 212.53, and the cycle logs that one row. *)
Theorem scenario_end_to_end :
  group_by_match ALIASES no_scorer events = [(("a", "b"), events)] /\
  (exists arb,
     detect_two_way_arbitrage events = Ok (Some arb) /\
     site_team1 arb = "S1" /\ arb_odds_team1 arb = 2.10 /\
     site_team2 arb = "S2" /\ arb_odds_team2 arb = 2.05 /\
     prob_sum arb = 1 / 2.10 + 1 / 2.05 /\
     margin arb = 1 - prob_sum arb /\
     approx (prob_sum arb) 0.9640 0.00005 = true /\
     approx (margin arb * 100) 3.60 0.005 = true) /\
  stake_split 400 2.10 2.05 = Ok (197.59, 202.41, 212.53) /\
  cycle ALIASES no_scorer 400 events =
  ([{| row_t1 := "a"; row_t2 := "b"; row_site1 := "S1"; row_site2 := "S2";
         row_odds1 := 2.10; row_odds2 := 2.05;
         row_prob_sum := 0.964; row_margin := 0.036;
         row_stake1 := 197.59; row_stake2 := 202.41; row_profit := 212.53 |}],
   None).
Proof.
  split; [vm_compute; reflexivity|]. split.
  - eexists. split; [vm_compute; reflexivity|].
    repeat split; vm_compute; reflexivity.
  - split; vm_compute; reflexivity.
Qed.

End ScenarioFacts.

(** ** Staking in exact arithmetic *)

Module ExactFacts.
Local Open Scope Q_scope.

Lemma round_half_even_near (q : Q) :
  inject_Z (round_half_even q) - q <= 1 # 2 /\
  q - inject_Z (round_half_even q) <= 1 # 2.
Proof.
  unfold round_half_even.
  pose proof (Qfloor_le q) as Hlo. pose proof (Qlt_floor q) as Hhi.
  rewrite inject_Z_plus in Hhi. change (inject_Z 1) with 1 in Hhi.
  destruct (q - inject_Z (Qfloor q) ?= 1 # 2) eqn:E.
  - apply Qeq_alt in E. destruct (Z.even (Qfloor q));
      rewrite ?inject_Z_plus; change (inject_Z 1) with 1; lra.
  - apply Qlt_alt in E. lra.
  - apply Qgt_alt in E. rewrite inject_Z_plus. change (inject_Z 1) with 1. lra.
Qed.

Lemma round_half_even_nonneg (q : Q) : 0 <= q -> (0 <= round_half_even q)%Z.
Proof.
  intros Hq. unfold round_half_even.
  pose proof (Qfloor_resp_le 0 q Hq) as Hf. change (Qfloor 0) with 0%Z in Hf.
  destruct (q - inject_Z (Qfloor q) ?= 1 # 2); [destruct (Z.even _)| |]; lia.
Qed.

Lemma round_half_even_pos (q : Q) : 1 # 2 < q -> (1 <= round_half_even q)%Z.
Proof.
  intros Hq. unfold round_half_even.
  assert (Hf : (0 <= Qfloor q)%Z).
  { apply (Qfloor_resp_le 0 q). lra. }
  destruct (q - inject_Z (Qfloor q) ?= 1 # 2) eqn:E;
    [destruct (Z.even _) eqn:Ev| |]; try lia.
  - apply Qeq_alt in E. destruct (Z.eq_dec (Qfloor q) 0) as [Z0|]; [|lia].
    rewrite Z0 in E. change (inject_Z 0) with 0 in E. exfalso. lra.
  - apply Qlt_alt in E. destruct (Z.eq_dec (Qfloor q) 0) as [Z0|]; [|lia].
    rewrite Z0 in E. change (inject_Z 0) with 0 in E. exfalso. lra.
Qed.

Lemma round_half_even_small (q : Q) : 0 <= q -> q < 1 # 2 -> round_half_even q = 0%Z.
Proof.
  intros H0 Hq. unfold round_half_even.
  assert (Hf : Qfloor q = 0%Z).
  { pose proof (Qfloor_resp_le 0 q H0) as Hlo. change (Qfloor 0) with 0%Z in Hlo.
    pose proof (Qfloor_le q) as Hle.
    assert (H1 : inject_Z (Qfloor q) < inject_Z 1) by (change (inject_Z 1) with 1; lra).
    rewrite <- Zlt_Qlt in H1. lia. }
  rewrite Hf. change (inject_Z 0) with 0.
  assert (E : (q - 0 ?= 1 # 2) = Lt) by (apply (proj1 (Qlt_alt _ _)); lra).
  now rewrite E.
Qed.

Lemma scale_2 : inject_Z (10 ^ 2) = 100.
Proof. reflexivity. Qed.

Lemma round_near (q : Q) : Qabs (Exact.round q 2 - q) <= 1 # 200.
Proof.
  unfold Exact.round. rewrite scale_2.
  destruct (round_half_even_near (q * 100)) as [Hup Hdown].
  apply Qabs_Qle_condition.
  set (n := inject_Z (round_half_even (q * 100))) in *.
  assert (E : n / 100 == n * (1 # 100)) by (field).
  rewrite E. lra.
Qed.

Lemma round_nonneg (q : Q) : 0 <= q -> 0 <= Exact.round q 2.
Proof.
  intros Hq. unfold Exact.round. rewrite scale_2.
  assert (Hn : (0 <= round_half_even (q * 100))%Z)
    by (apply round_half_even_nonneg; lra).
  rewrite Zle_Qle in Hn. change (inject_Z 0) with 0 in Hn.
  set (n := inject_Z (round_half_even (q * 100))) in *.
  assert (E : n / 100 == n * (1 # 100)) by (field).
  rewrite E. lra.
Qed.

Lemma round_pos (q : Q) : 1 # 200 < q -> 1 # 100 <= Exact.round q 2.
Proof.
  intros Hq. unfold Exact.round. rewrite scale_2.
  assert (Hn : (1 <= round_half_even (q * 100))%Z)
    by (apply round_half_even_pos; lra).
  rewrite Zle_Qle in Hn. change (inject_Z 1) with 1 in Hn.
  set (n := inject_Z (round_half_even (q * 100))) in *.
  assert (E : n / 100 == n * (1 # 100)) by (field).
  rewrite E. lra.
Qed.

Lemma round_zero (q : Q) : 0 <= q -> q < 1 # 200 -> Exact.round q 2 == 0.
Proof.
  intros H0 Hq. unfold Exact.round. rewrite scale_2.
  rewrite round_half_even_small by lra. reflexivity.
Qed.

Lemma div_nonzero (x y : Q) : ~ y == 0 -> Exact.div x y = Ok (x / y).
Proof.
  intros Hy. unfold Exact.div. destruct (Qeq_bool y 0) eqn:E; [|reflexivity].
  apply Qeq_bool_iff in E. contradiction.
Qed.

Lemma inv_pos (o : Q) : 1 < o -> 0 < 1 / o.
Proof.
  intros Ho. unfold Qdiv. rewrite Qmult_1_l. apply Qinv_lt_0_compat. lra.
Qed.

(** The share of the bankroll staked on side 1. *)
Lemma share_eq (o1 o2 : Q) :
  1 < o1 -> 1 < o2 -> (1 / o1) / (1 / o1 + 1 / o2) == o2 / (o1 + o2).
Proof. intros H1 H2. field. repeat split; lra. Qed.

Lemma raw_stakes_exact (B o1 o2 : Q) :
  1 < o1 -> 1 < o2 ->
  raw_stakes B o1 o2 =
  Ok (B * ((1 / o1) / (1 / o1 + 1 / o2)),
      B - B * ((1 / o1) / (1 / o1 + 1 / o2))).
Proof.
  intros H1 H2. pose proof (inv_pos o1 H1). pose proof (inv_pos o2 H2).
  unfold raw_stakes. cbn [fdiv Exact.exact of_int fadd fmul fsub].
  change (inject_Z 1) with 1.
  rewrite (div_nonzero 1 o1) by lra. rewrite (div_nonzero 1 o2) by lra.
  cbn [bind]. rewrite div_nonzero by lra. reflexivity.
Qed.

Lemma stake1_eq (B o1 o2 : Q) :
  1 < o1 -> 1 < o2 ->
  B * ((1 / o1) / (1 / o1 + 1 / o2)) == B * o2 / (o1 + o2).
Proof. intros H1 H2. field. repeat split; lra. Qed.

Lemma stake2_eq (B o1 o2 : Q) :
  1 < o1 -> 1 < o2 ->
  B - B * ((1 / o1) / (1 / o1 + 1 / o2)) == B * o1 / (o1 + o2).
Proof. intros H1 H2. field. repeat split; lra. Qed.

Lemma frac_pos (a b : Q) : 0 < a -> 0 < b -> 0 < a / b.
Proof.
  intros Ha Hb. unfold Qdiv. apply Qmult_lt_0_compat; [exact Ha|].
  now apply Qinv_lt_0_compat.
Qed.

Lemma round_half_even_comp (q q' : Q) :
  q == q' -> round_half_even q = round_half_even q'.
Proof.
  intros E. unfold round_half_even.
  rewrite (Qfloor_comp q q' E).
  now rewrite (Qcompare_comp (q - inject_Z (Qfloor q')) (q' - inject_Z (Qfloor q'))
                 ltac:(rewrite E; reflexivity) (1 # 2) (1 # 2) ltac:(reflexivity)).
Qed.

Lemma Qfloor_unique (z : Z) (q : Q) :
  inject_Z z <= q -> q < inject_Z z + 1 -> Qfloor q = z.
Proof.
  intros Hlo Hhi.
  pose proof (Qfloor_le q) as Fl. pose proof (Qlt_floor q) as Fh.
  rewrite inject_Z_plus in Fh. change (inject_Z 1) with 1 in Fh.
  assert (A : inject_Z (Qfloor q) < inject_Z (z + 1))
    by (rewrite inject_Z_plus; change (inject_Z 1) with 1; lra).
  assert (B : inject_Z z < inject_Z (Qfloor q + 1))
    by (rewrite inject_Z_plus; change (inject_Z 1) with 1; lra).
  rewrite <- Zlt_Qlt in A, B. lia.
Qed.

(** A rational strictly within one half of an integer rounds to it. *)
Lemma round_half_even_unique (z : Z) (q : Q) :
  inject_Z z - (1 # 2) < q -> q < inject_Z z + (1 # 2) -> round_half_even q = z.
Proof.
  intros Hlo Hhi. unfold round_half_even.
  destruct (Qlt_le_dec q (inject_Z z)) as [Hlt|Hge].
  - assert (Hf : Qfloor q = (z - 1)%Z).
    { apply Qfloor_unique; unfold Z.sub; rewrite inject_Z_plus, inject_Z_opp;
        change (inject_Z 1) with 1; lra. }
    rewrite Hf.
    assert (E : (q - inject_Z (z - 1) ?= 1 # 2) = Gt).
    { apply (proj1 (Qgt_alt _ _)). unfold Z.sub.
      rewrite inject_Z_plus, inject_Z_opp. change (inject_Z 1) with 1. lra. }
    rewrite E. lia.
  - assert (Hf : Qfloor q = z) by (apply Qfloor_unique; lra).
    rewrite Hf.
    assert (E : (q - inject_Z z ?= 1 # 2) = Lt)
      by (apply (proj1 (Qlt_alt _ _)); lra).
    now rewrite E.
Qed.

Lemma round_half_even_strict (q : Q) :
  ~ q - inject_Z (Qfloor q) == 1 # 2 ->
  inject_Z (round_half_even q) - (1 # 2) < q /\
  q < inject_Z (round_half_even q) + (1 # 2).
Proof.
  intros Hn. unfold round_half_even.
  pose proof (Qfloor_le q) as Hlo. pose proof (Qlt_floor q) as Hhi.
  rewrite inject_Z_plus in Hhi. change (inject_Z 1) with 1 in Hhi.
  destruct (q - inject_Z (Qfloor q) ?= 1 # 2) eqn:E.
  - apply Qeq_alt in E. contradiction.
  - apply Qlt_alt in E. lra.
  - apply Qgt_alt in E. rewrite inject_Z_plus. change (inject_Z 1) with 1. lra.
Qed.

(** Away from a tie, rounding [n - x] mirrors rounding [x]. *)
Lemma round_half_even_complement (n : Z) (x : Q) :
  ~ x - inject_Z (Qfloor x) == 1 # 2 ->
  round_half_even (inject_Z n - x) = (n - round_half_even x)%Z.
Proof.
  intros Hn. destruct (round_half_even_strict x Hn) as [Hlo Hhi].
  apply round_half_even_unique;
    unfold Z.sub; rewrite inject_Z_plus, inject_Z_opp; lra.
Qed.

Lemma stake1_pos (B o1 o2 : Q) :
  0 < B -> 1 < o1 -> 1 < o2 -> 0 < B * ((1 / o1) / (1 / o1 + 1 / o2)).
Proof.
  intros HB H1 H2. rewrite stake1_eq by assumption.
  apply frac_pos; [apply Qmult_lt_0_compat|]; lra.
Qed.

Lemma stake2_pos (B o1 o2 : Q) :
  0 < B -> 1 < o1 -> 1 < o2 -> 0 < B - B * ((1 / o1) / (1 / o1 + 1 / o2)).
Proof.
  intros HB H1 H2. rewrite stake2_eq by assumption.
  apply frac_pos; [apply Qmult_lt_0_compat|]; lra.
Qed.

Lemma leg_profit_exact (s o : Q) : leg_profit s o = s * (o - 1).
Proof. reflexivity. Qed.

Lemma py_min_cases (a b : Q) :
  (py_min a b = a /\ a <= b) \/ (py_min a b = b /\ b < a).
Proof.
  unfold py_min. cbn [flt Exact.exact].
  destruct (Qle_bool a b) eqn:E; simpl.
  - left. split; [reflexivity|]. now apply Qle_bool_iff.
  - right. split; [reflexivity|]. apply Qnot_le_lt. intros Hle.
    apply Qle_bool_iff in Hle. congruence.
Qed.

Lemma py_min_pos (a b : Q) : 0 < a -> 0 < b -> 0 < py_min a b.
Proof. intros Ha Hb. destruct (py_min_cases a b) as [[-> _]|[-> _]]; assumption. Qed.

Lemma stake_split_exact (B o1 o2 : Q) :
  1 < o1 -> 1 < o2 ->
  let s1 := B * ((1 / o1) / (1 / o1 + 1 / o2)) in
  let s2 := B - s1 in
  stake_split B o1 o2 =
  Ok (Exact.round s1 2, Exact.round s2 2,
      Exact.round (py_min (leg_profit s1 o1) (leg_profit s2 o2)) 2).
Proof.
  intros H1 H2 s1 s2. unfold stake_split.
  rewrite raw_stakes_exact by assumption. reflexivity.
Qed.







End ExactFacts.

(** ** Staking on concrete inputs *)

Module StakeExamples.
Local Open Scope float_scope.




End StakeExamples.

(** * Further properties of the code

    ** Names and aliases *)

Module NameFacts.

Import Str StrFacts.
Local Open Scope string_scope.

Lemma lstrip_blank (p : string) : blank p = true -> lstrip p = "".
Proof.
  induction p as [|c p IH]; simpl; [reflexivity|].
  intros Hb. apply andb_true_iff in Hb as [Hc Hp]. rewrite Hc. now apply IH.
Qed.

Lemma rstrip_blank (p : string) : blank p = true -> rstrip p = "".
Proof.
  induction p as [|c p IH]; simpl; [reflexivity|].
  intros Hb. apply andb_true_iff in Hb as [Hc Hp]. now rewrite (IH Hp), Hc.
Qed.

Lemma lstrip_app_blank (pre s : string) :
  blank pre = true -> lstrip (pre ++ s) = lstrip s.
Proof.
  induction pre as [|c pre IH]; simpl; [reflexivity|].
  intros Hb. apply andb_true_iff in Hb as [Hc Hp]. rewrite Hc. now apply IH.
Qed.

Lemma rstrip_app_blank (s post : string) :
  blank post = true -> rstrip (s ++ post) = rstrip s.
Proof.
  intros Hb. induction s as [|c s IH]; simpl; [now apply rstrip_blank|].
  now rewrite IH.
Qed.

Lemma strip_app_blank (s post : string) :
  blank post = true -> strip (s ++ post) = strip s.
Proof.
  intros Hb. unfold strip. induction s as [|c s IH]; simpl.
  - now rewrite (lstrip_blank post Hb).
  - destruct (is_space c); [exact IH|].
    change (String c (s ++ post)) with (String c s ++ post).
    now apply rstrip_app_blank.
Qed.

Lemma strip_surrounded (pre s post : string) :
  blank pre = true -> blank post = true -> strip (pre ++ s ++ post) = strip s.
Proof.
  intros Hpre Hpost. unfold strip at 1. rewrite (lstrip_app_blank pre _ Hpre).
  now apply strip_app_blank.
Qed.

(** X1. The result of [normalize_team] is lowercase and carries no outer
    whitespace: [lower] and [strip] leave it unchanged. *)
Theorem normalize_team_normal_form (name : string) :
  lower (normalize_team name) = normalize_team name /\
  strip (normalize_team name) = normalize_team name.
Proof. split; [apply lower_normalize_team | apply strip_normalize_team]. Qed.

Lemma normalize_team_blank_around (pre name post : string) :
  blank pre = true -> blank post = true ->
  normalize_team (pre ++ name ++ post) = normalize_team name.
Proof. intros Hpre Hpost. unfold normalize_team. now rewrite strip_surrounded. Qed.

(** X2. [normalize_team] ignores whitespace around the name, also together
    with a change of case. *)
Theorem normalize_team_surrounded (pre name post : string)
  (Hpre : blank pre = true) (Hpost : blank post = true) :
  normalize_team (pre ++ name ++ post) = normalize_team name /\
  normalize_team (lower (pre ++ name ++ post)) = normalize_team name.
Proof.
  split; [now apply normalize_team_blank_around|].
  rewrite normalize_team_lower. now apply normalize_team_blank_around.
Qed.

Lemma normalize_team_surrounded_witness :
  normalize_team ("  " ++ "Team Liquid" ++ " ") = normalize_team "Team Liquid".
Proof.
  apply (normalize_team_surrounded "  " "Team Liquid" " "); reflexivity.
Defined.

Section Alias.

Context {F : Type} `{PyFloat F}.
Variable table : list (string * list string).
Variable extractOne : string -> list string -> option (string * F).

Local Abbreviation hits := (hits extractOne).

Lemma alias_scan_hits (norm : string) (tbl : list (string * list string)) :
  alias_scan extractOne norm tbl =
  match tbl with
  | [] => None
  | g :: rest =>
      if hits norm g then Some (fst g) else alias_scan extractOne norm rest
  end.
Proof.
  destruct tbl as [|[c alts] rest]; [reflexivity|]. unfold hits. simpl.
  destruct (extractOne norm (c :: alts)) as [[x score]|]; reflexivity.
Qed.

Lemma alias_scan_miss (norm : string) (tbl : list (string * list string)) :
  (forall g, In g tbl -> hits norm g = false) ->
  alias_scan extractOne norm tbl = None.
Proof.
  induction tbl as [|g rest IH]; intros Hm; rewrite alias_scan_hits; [reflexivity|].
  rewrite (Hm g (or_introl eq_refl)). apply IH. intros g' Hg'. apply Hm. now right.
Qed.

Lemma alias_scan_first (norm : string) (pre : list (string * list string)) g post :
  (forall g', In g' pre -> hits norm g' = false) -> hits norm g = true ->
  alias_scan extractOne norm (pre ++ g :: post)%list = Some (fst g).
Proof.
  induction pre as [|g0 pre IH]; intros Hm Hg; simpl app; rewrite alias_scan_hits.
  - now rewrite Hg.
  - rewrite (Hm g0 (or_introl eq_refl)). apply IH; [|exact Hg].
    intros g' Hg'. apply Hm. now right.
Qed.

Lemma alias_scan_in (norm : string) (tbl : list (string * list string)) c :
  alias_scan extractOne norm tbl = Some c -> In c (map fst tbl).
Proof.
  induction tbl as [|g rest IH]; rewrite alias_scan_hits; [discriminate|].
  destruct (hits norm g).
  - intros E. injection E as <-. now left.
  - intros E. right. now apply IH.
Qed.

(** X3. [alias_lookup] returns the canonical name of the first group of the
    table that reaches the threshold for the normalised name, and the
    normalised name itself when no group does; its result is always the
    normalised name or a canonical name of the table. *)
Theorem alias_lookup_first_hit (name : string) :
  let norm := normalize_team name in
  ((forall g, In g table -> hits norm g = false) ->
   alias_lookup table extractOne name = norm) /\
  (forall pre g post,
     table = (pre ++ g :: post)%list ->
     (forall g', In g' pre -> hits norm g' = false) -> hits norm g = true ->
     alias_lookup table extractOne name = fst g) /\
  (alias_lookup table extractOne name = norm \/
   In (alias_lookup table extractOne name) (map fst table)).
Proof.
  intros norm. unfold alias_lookup. fold norm. split; [|split].
  - intros Hm. now rewrite (alias_scan_miss norm table Hm).
  - intros pre g post -> Hm Hg. now rewrite (alias_scan_first norm pre g post Hm Hg).
  - destruct (alias_scan extractOne norm table) as [c|] eqn:E; [|now left].
    right. now apply (alias_scan_in norm table).
Qed.

(** X4. [alias_lookup] and the grouping key ignore the case of a name and the
    whitespace around it. *)
Theorem alias_lookup_insensitive (pre name post other : string)
  (Hpre : blank pre = true) (Hpost : blank post = true) :
  alias_lookup table extractOne (pre ++ name ++ post)
  = alias_lookup table extractOne name /\
  alias_lookup table extractOne (lower name)
  = alias_lookup table extractOne name /\
  pair_key table extractOne (lower (pre ++ name ++ post)) other
  = pair_key table extractOne name other /\
  pair_key table extractOne other (lower (pre ++ name ++ post))
  = pair_key table extractOne other name.
Proof.
  pose proof (normalize_team_blank_around pre name post Hpre Hpost) as E1.
  assert (E2 : normalize_team (lower (pre ++ name ++ post)) = normalize_team name)
    by (now rewrite normalize_team_lower).
  assert (A : alias_lookup table extractOne (lower (pre ++ name ++ post))
              = alias_lookup table extractOne name)
    by (unfold alias_lookup; now rewrite E2).
  split; [unfold alias_lookup; now rewrite E1|].
  split; [unfold alias_lookup; now rewrite normalize_team_lower|].
  unfold pair_key. now rewrite A.
Qed.

End Alias.

Lemma alias_lookup_first_hit_witness :
  alias_lookup [("natus vincere", ["navi"]); ("ninjas in pyjamas", ["nip"; "navi"])]
    Sample.exact_scorer " NaVi " = "natus vincere".
Proof.
  destruct (alias_lookup_first_hit
              [("natus vincere", ["navi"]); ("ninjas in pyjamas", ["nip"; "navi"])]
              Sample.exact_scorer " NaVi ") as (_ & Hfirst & _).
  apply (Hfirst [] ("natus vincere", ["navi"])
           [("ninjas in pyjamas", ["nip"; "navi"])]).
  - reflexivity.
  - intros g' [].
  - reflexivity.
Defined.

Lemma alias_lookup_insensitive_witness :
  alias_lookup ALIASES Sample.exact_scorer ("  " ++ "Team Liquid" ++ " ")
  = alias_lookup ALIASES Sample.exact_scorer "Team Liquid".
Proof.
  apply (alias_lookup_insensitive ALIASES Sample.exact_scorer "  " "Team Liquid" " " "");
    reflexivity.
Defined.

End NameFacts.

(** ** The order of the buckets *)

Module GroupingFacts.

Local Open Scope string_scope.
Local Open Scope list_scope.

Section Order.

Context {F : Type} `{PyFloat F}.
Variable table : list (string * list string).
Variable extractOne : string -> list string -> option (string * F).

Local Abbreviation key := (match_key table extractOne).

Lemma existsb_key_In (k : string * string) (l : list (string * string)) :
  existsb (key_eqb k) l = true <-> In k l.
Proof.
  rewrite existsb_exists. split.
  - intros (k' & Hin & E). apply key_eqb_eq in E. now subst.
  - intros Hin. exists k. split; [exact Hin | now apply key_eqb_eq].
Qed.

Lemma in_first_seen (k : string * string) (l : list (string * string)) :
  In k (first_seen l) <-> In k l.
Proof.
  induction l as [|a l IH]; simpl; [tauto|].
  rewrite filter_In, IH, negb_true_iff, key_eqb_neq.
  destruct (key_dec k a) as [->|Hne]; [tauto|].
  split; [tauto|]. intros [E|Hin]; [congruence|]. right. split; assumption.
Qed.

Lemma first_seen_snoc (l : list (string * string)) (k : string * string) :
  first_seen (l ++ [k]) =
  first_seen l ++ (if existsb (key_eqb k) l then [] else [k]).
Proof.
  induction l as [|a l IH]; simpl; [reflexivity|].
  rewrite IH, filter_app. f_equal. f_equal.
  destruct (key_eqb k a) eqn:E; simpl.
  - destruct (existsb (key_eqb k) l); simpl; [reflexivity|].
    now rewrite E.
  - destruct (existsb (key_eqb k) l); simpl; [reflexivity|].
    now rewrite E.
Qed.

Lemma setdefault_append_keys k (ev : EventOdds F) g :
  map fst (setdefault_append k ev g) =
  map fst g ++ (if existsb (key_eqb k) (map fst g) then [] else [k]).
Proof.
  induction g as [|[k' l] g IH]; simpl; [reflexivity|].
  destruct (key_eqb k k') eqn:E; simpl.
  - now rewrite app_nil_r.
  - now rewrite IH.
Qed.

(** X5. The buckets of [group_by_match] come in the order in which their keys
    first occur among the events, one bucket per distinct key. *)
Theorem group_by_match_order (events : list (EventOdds F)) :
  map fst (group_by_match table extractOne events) = first_seen (map key events).
Proof.
  induction events as [|ev events IH] using rev_ind; [reflexivity|].
  rewrite group_by_match_snoc, setdefault_append_keys, map_app. cbn [map].
  rewrite first_seen_snoc, IH. f_equal.
  destruct (existsb (key_eqb (key ev)) (first_seen (map key events))) eqn:E1,
           (existsb (key_eqb (key ev)) (map key events)) eqn:E2; try reflexivity.
  - apply (proj1 (existsb_key_In _ _)), (proj1 (in_first_seen _ _)),
      (proj2 (existsb_key_In _ _)) in E1. congruence.
  - apply (proj1 (existsb_key_In _ _)), (proj2 (in_first_seen _ _)),
      (proj2 (existsb_key_In _ _)) in E2. congruence.
Qed.

End Order.
End GroupingFacts.

(** ** Which quotation a detected opportunity uses *)

Module OrderBinary64.
Import Binary64Facts.

Lemma SFcompare_below_trans (a b c : spec_float) :
  SFeqb a a = true -> SFeqb b b = true ->
  SFltb b a = false -> SFltb b c = true -> SFltb a c = true.
Proof.
  unfold SFeqb, SFltb.
  destruct a as [[]|[]| |[] ma ea], b as [[]|[]| |[] mb eb],
    c as [[]|[]| |[] mc ec]; intros Ha Hb Hba Hbc; by_cases.
Qed.

Lemma SFcompare_neither (a b : spec_float) :
  SFeqb a a = true -> SFeqb b b = true ->
  SFltb a b = false -> SFltb b a = false -> SFeqb a b = true.
Proof.
  unfold SFeqb, SFltb.
  destruct a as [[]|[]| |[] ma ea], b as [[]|[]| |[] mb eb];
    intros Ha Hb Hab Hba; by_cases.
Qed.

Lemma SFeqb_cases (a b : spec_float) :
  SFeqb a b = true ->
  a = b \/ (SFeqb a (S754_zero false) = true /\ SFeqb b (S754_zero false) = true).
Proof.
  unfold SFeqb.
  destruct a as [[]|[]| |[] ma ea], b as [[]|[]| |[] mb eb]; intros Hab;
    simpl in *; try discriminate; auto;
    split_compare; subst; try discriminate; auto.
Qed.

Lemma ltb_below_trans (x y z : float) :
  PrimFloat.eqb x x = true -> PrimFloat.eqb y y = true ->
  PrimFloat.ltb y x = false -> PrimFloat.ltb y z = true ->
  PrimFloat.ltb x z = true.
Proof.
  rewrite !FloatAxioms.eqb_spec, !FloatAxioms.ltb_spec.
  apply SFcompare_below_trans.
Qed.

Lemma eqb_of_neither (x y : float) :
  PrimFloat.eqb x x = true -> PrimFloat.eqb y y = true ->
  PrimFloat.ltb x y = false -> PrimFloat.ltb y x = false ->
  PrimFloat.eqb x y = true.
Proof.
  rewrite !FloatAxioms.eqb_spec, !FloatAxioms.ltb_spec.
  apply SFcompare_neither.
Qed.

Lemma eqb_cases (x y : float) :
  PrimFloat.eqb x y = true ->
  x = y \/ (PrimFloat.eqb x 0 = true /\ PrimFloat.eqb y 0 = true).
Proof.
  rewrite !FloatAxioms.eqb_spec. intros E.
  destruct (SFeqb_cases _ _ E) as [Hxy|Hz]; [left|right; exact Hz].
  rewrite <- (SF2Prim_Prim2SF x), <- (SF2Prim_Prim2SF y). now rewrite Hxy.
Qed.

End OrderBinary64.

Section DetectShape.

Context {F : Type} `{PyFloat F}.

(** What a returned opportunity says about the bucket it came from. *)
Lemma detect_some (booklines : list (EventOdds F)) (arb : Arb F) :
  detect_two_way_arbitrage booklines = Ok (Some arb) ->
  exists first rest i1 i2,
    booklines = first :: rest /\
    let best_t1 := py_max odds_team1 first rest in
    let best_t2 := py_max odds_team2 first rest in
    implied_prob (odds_team1 best_t1) = Ok i1 /\
    implied_prob (odds_team2 best_t2) = Ok i2 /\
    flt (fadd i1 i2) (of_int 1) = true /\
    arb = {| arb_team1 := team1 best_t1; arb_team2 := team2 best_t2;
             site_team1 := site best_t1; site_team2 := site best_t2;
             arb_odds_team1 := odds_team1 best_t1;
             arb_odds_team2 := odds_team2 best_t2;
             prob_sum := fadd i1 i2;
             margin := fsub (of_int 1) (fadd i1 i2) |}.
Proof.
  destruct booklines as [|first rest]; [discriminate|].
  unfold detect_two_way_arbitrage.
  destruct (implied_prob (odds_team1 (py_max odds_team1 first rest)))
    as [i1|e] eqn:E1; [|discriminate].
  destruct (implied_prob (odds_team2 (py_max odds_team2 first rest)))
    as [i2|e] eqn:E2; [|discriminate].
  cbn [bind].
  destruct (flt (fadd i1 i2) (of_int 1)) eqn:Elt; [|discriminate].
  intros E. injection E as <-.
  exists first, rest, i1, i2. repeat split; assumption.
Qed.

End DetectShape.

Module TieBreak.
Import Binary64Facts OrderBinary64.
Local Open Scope float_scope.
Local Open Scope list_scope.

Section Earliest.

Variable A : Type.
Variable key : A -> float.

Lemma py_max_earliest (rest : list A) :
  forall best,
    (forall e, In e (best :: rest) -> PrimFloat.eqb (key e) (key e) = true) ->
    let m := py_max key best rest in
    (m = best /\ forall e, In e rest -> PrimFloat.ltb (key best) (key e) = false) \/
    (exists pre post,
       rest = pre ++ m :: post /\
       PrimFloat.ltb (key best) (key m) = true /\
       (forall e, In e pre -> PrimFloat.ltb (key e) (key m) = true) /\
       (forall e, In e post -> PrimFloat.ltb (key m) (key e) = false)).
Proof.
  induction rest as [|x rest IH]; intros best Hn m.
  - left. split; [reflexivity | intros e []].
  - subst m. rewrite (@py_max_step float Binary64.binary64).
    change (@flt float Binary64.binary64) with PrimFloat.ltb.
    destruct (PrimFloat.ltb (key best) (key x)) eqn:Ex.
    + destruct (IH x) as [[Em Hr]|(pre & post & Er & Hm & Hpre & Hpost)].
      { intros e He. apply Hn. now right. }
      * right. exists [], rest. rewrite Em. repeat split; auto; intros e [].
      * right. exists (x :: pre), post. rewrite Er at 1. repeat split; auto.
        -- now apply (ltb_trans _ _ _ Ex).
        -- intros e [<-|He]; auto.
    + destruct (IH best) as [[Em Hr]|(pre & post & Er & Hm & Hpre & Hpost)].
      { intros e [<-|He]; apply Hn; [now left | now right; right]. }
      * left. split; [exact Em|]. intros e [<-|He]; auto.
      * right. exists (x :: pre), post. rewrite Er at 1. repeat split; auto.
        intros e [<-|He]; auto.
        apply (ltb_below_trans _ (key best)); auto.
        -- apply Hn. right. now left.
        -- apply Hn. now left.
Qed.

Lemma py_max_position (first : A) (rest : list A) :
  (forall e, In e (first :: rest) -> PrimFloat.eqb (key e) (key e) = true) ->
  exists pre post,
    first :: rest = pre ++ py_max key first rest :: post /\
    (forall e, In e pre ->
       PrimFloat.ltb (key e) (key (py_max key first rest)) = true) /\
    (forall e, In e post ->
       PrimFloat.leb (key e) (key (py_max key first rest)) = true).
Proof.
  intros Hn.
  assert (Hm : PrimFloat.eqb (key (py_max key first rest))
                 (key (py_max key first rest)) = true)
    by (apply Hn, (@py_max_in float Binary64.binary64)).
  destruct (py_max_earliest rest first Hn)
    as [[Em Hr]|(pre & post & Er & Hf & Hpre & Hpost)].
  - exists [], rest. rewrite Em at 1. split; [reflexivity|].
    split; [intros e []|]. intros e He. apply not_ltb_leb; auto.
    + apply Hn. now right.
    + rewrite Em. now apply Hr.
  - exists (first :: pre), post. rewrite Er at 1. split; [reflexivity|]. split.
    + intros e [<-|He]; auto.
    + intros e He. apply not_ltb_leb; auto.
      apply Hn. right. rewrite Er. apply in_or_app. right. now right.
Qed.

End Earliest.

(** X6. On binary64, with no NaN among the odds, each leg of a returned
    opportunity is the earliest quotation of the bucket with the greatest
    odds on its side: every quotation before it has strictly smaller odds,
    none after it has greater ones. *)
Theorem detect_earliest_best (booklines : list (EventOdds float))
  (arb : Arb float)
  (Hnan : forall e, In e booklines ->
     PrimFloat.eqb (odds_team1 e) (odds_team1 e) = true /\
     PrimFloat.eqb (odds_team2 e) (odds_team2 e) = true)
  (Harb : detect_two_way_arbitrage booklines = Ok (Some arb)) :
  (exists pre best post,
     booklines = pre ++ best :: post /\
     (forall e, In e pre -> PrimFloat.ltb (odds_team1 e) (odds_team1 best) = true) /\
     (forall e, In e post -> PrimFloat.leb (odds_team1 e) (odds_team1 best) = true) /\
     arb_team1 arb = team1 best /\ site_team1 arb = site best /\
     arb_odds_team1 arb = odds_team1 best) /\
  (exists pre best post,
     booklines = pre ++ best :: post /\
     (forall e, In e pre -> PrimFloat.ltb (odds_team2 e) (odds_team2 best) = true) /\
     (forall e, In e post -> PrimFloat.leb (odds_team2 e) (odds_team2 best) = true) /\
     arb_team2 arb = team2 best /\ site_team2 arb = site best /\
     arb_odds_team2 arb = odds_team2 best).
Proof.
  destruct (detect_some booklines arb Harb)
    as (first & rest & i1 & i2 & -> & _ & _ & _ & ->).
  split.
  - destruct (py_max_position _ odds_team1 first rest) as (pre & post & E & Hpre & Hpost).
    { intros e He. now apply Hnan. }
    exists pre, (py_max odds_team1 first rest), post. repeat split; auto.
  - destruct (py_max_position _ odds_team2 first rest) as (pre & post & E & Hpre & Hpost).
    { intros e He. now apply Hnan. }
    exists pre, (py_max odds_team2 first rest), post. repeat split; auto.
Qed.

Lemma detect_earliest_best_witness :
  exists arb pre best post,
    detect_two_way_arbitrage Scenario.events = Ok (Some arb) /\
    Scenario.events = pre ++ best :: post /\
    site_team1 arb = site best /\ arb_odds_team1 arb = odds_team1 best.
Proof.
  assert (Harb : exists arb,
             detect_two_way_arbitrage Scenario.events = Ok (Some arb))
    by (eexists; vm_compute; reflexivity).
  destruct Harb as [arb Harb].
  assert (Hnan : forall e, In e Scenario.events ->
            PrimFloat.eqb (odds_team1 e) (odds_team1 e) = true /\
            PrimFloat.eqb (odds_team2 e) (odds_team2 e) = true)
    by (intros e [<-|[<-|[<-|[]]]]; split; reflexivity).
  destruct (detect_earliest_best Scenario.events arb Hnan Harb)
    as [(pre & best & post & E & _ & _ & _ & Hs & Ho) _].
  exists arb, pre, best, post. repeat split; assumption.
Defined.

End TieBreak.

Module BucketOrder.
Import Binary64Facts OrderBinary64 DetectBinary64.
Local Open Scope float_scope.
Local Open Scope list_scope.

Section SameBest.

Variable A : Type.
Variable key : A -> float.

(** Two arrangements of the same items have equal greatest keys. *)
Lemma py_max_permuted (first first' : A) (rest rest' : list A) :
  Permutation (first :: rest) (first' :: rest') ->
  (forall e, In e (first :: rest) -> PrimFloat.eqb (key e) (key e) = true) ->
  PrimFloat.eqb (key (py_max key first rest)) (key (py_max key first' rest')) = true.
Proof.
  intros Hp Hn.
  pose proof (@py_max_in float Binary64.binary64 A key rest first) as I1.
  pose proof (@py_max_in float Binary64.binary64 A key rest' first') as I2.
  assert (I2' : In (py_max key first' rest') (first :: rest))
    by (apply (Permutation_in _ (Permutation_sym Hp)); exact I2).
  assert (I1' : In (py_max key first rest) (first' :: rest'))
    by (apply (Permutation_in _ Hp); exact I1).
  apply eqb_of_neither.
  - now apply Hn.
  - now apply Hn.
  - now apply (@py_max_greatest float Binary64.binary64 ltb_irrefl ltb_trans).
  - now apply (@py_max_greatest float Binary64.binary64 ltb_irrefl ltb_trans).
Qed.

End SameBest.

Lemma detect_of_best (first : EventOdds float) (rest : list (EventOdds float)) :
  detect_two_way_arbitrage (first :: rest) =
  let best_t1 := py_max odds_team1 first rest in
  let best_t2 := py_max odds_team2 first rest in
  if PrimFloat.eqb (odds_team1 best_t1) 0 then Raise ZeroDivisionError
  else if PrimFloat.eqb (odds_team2 best_t2) 0 then Raise ZeroDivisionError
  else
    let p_sum := 1 / odds_team1 best_t1 + 1 / odds_team2 best_t2 in
    if PrimFloat.ltb p_sum 1 then
      Ok (Some {| arb_team1 := team1 best_t1; arb_team2 := team2 best_t2;
                  site_team1 := site best_t1; site_team2 := site best_t2;
                  arb_odds_team1 := odds_team1 best_t1;
                  arb_odds_team2 := odds_team2 best_t2;
                  prob_sum := p_sum; margin := 1 - p_sum |})
    else Ok None.
Proof.
  cbv zeta. unfold detect_two_way_arbitrage.
  destruct (PrimFloat.eqb (odds_team1 (py_max odds_team1 first rest)) 0) eqn:Z1.
  - now rewrite (implied_prob_zero _ Z1).
  - rewrite (implied_prob_nonzero _ Z1). cbn [bind].
    destruct (PrimFloat.eqb (odds_team2 (py_max odds_team2 first rest)) 0) eqn:Z2.
    + now rewrite (implied_prob_zero _ Z2).
    + rewrite (implied_prob_nonzero _ Z2). cbn [bind]. now rewrite one_is_1.
Qed.

(** X7. On binary64, with no NaN among the odds, the outcome of detection does
    not depend on the order of the quotations in the bucket: two
    arrangements of one bucket both raise, both return none, or both return
    an opportunity with the same two odds, probability sum and margin. *)
Theorem detect_order_independent (booklines booklines' : list (EventOdds float))
  (Hperm : Permutation booklines booklines')
  (Hnan : forall e, In e booklines ->
     PrimFloat.eqb (odds_team1 e) (odds_team1 e) = true /\
     PrimFloat.eqb (odds_team2 e) (odds_team2 e) = true) :
  match detect_two_way_arbitrage booklines,
        detect_two_way_arbitrage booklines' with
  | Ok (Some arb), Ok (Some arb') =>
      arb_odds_team1 arb = arb_odds_team1 arb' /\
      arb_odds_team2 arb = arb_odds_team2 arb' /\
      prob_sum arb = prob_sum arb' /\ margin arb = margin arb'
  | Ok None, Ok None => True
  | Raise e, Raise e' => e = e'
  | _, _ => False
  end.
Proof.
  destruct booklines as [|first rest].
  - apply Permutation_nil in Hperm. subst. exact I.
  - destruct booklines' as [|first' rest'];
      [apply Permutation_sym, Permutation_nil in Hperm; discriminate|].
    rewrite !detect_of_best. cbv zeta.
    pose proof (py_max_permuted _ odds_team1 first first' rest rest' Hperm
                  (fun e He => proj1 (Hnan e He))) as E1.
    pose proof (py_max_permuted _ odds_team2 first first' rest rest' Hperm
                  (fun e He => proj2 (Hnan e He))) as E2.
    set (o1 := odds_team1 (py_max odds_team1 first rest)) in *.
    set (o1' := odds_team1 (py_max odds_team1 first' rest')) in *.
    set (o2 := odds_team2 (py_max odds_team2 first rest)) in *.
    set (o2' := odds_team2 (py_max odds_team2 first' rest')) in *.
    destruct (eqb_cases o1 o1' E1) as [<-|[Z1 Z1']].
    + destruct (PrimFloat.eqb o1 0); [reflexivity|].
      destruct (eqb_cases o2 o2' E2) as [<-|[Z2 Z2']].
      * destruct (PrimFloat.eqb o2 0); [reflexivity|].
        destruct (PrimFloat.ltb (1 / o1 + 1 / o2) 1); cbn; auto.
      * now rewrite Z2, Z2'.
    + now rewrite Z1, Z1'.
Qed.

Lemma detect_order_independent_witness :
  match detect_two_way_arbitrage Scenario.events,
        detect_two_way_arbitrage (rev Scenario.events) with
  | Ok (Some arb), Ok (Some arb') =>
      arb_odds_team1 arb = arb_odds_team1 arb' /\
      arb_odds_team2 arb = arb_odds_team2 arb' /\
      prob_sum arb = prob_sum arb' /\ margin arb = margin arb'
  | Ok None, Ok None => True
  | Raise e, Raise e' => e = e'
  | _, _ => False
  end.
Proof.
  apply (detect_order_independent Scenario.events (rev Scenario.events)).
  - apply Permutation_rev.
  - intros e [<-|[<-|[<-|[]]]]; split; reflexivity.
Defined.

End BucketOrder.

(** ** What a cycle logs *)

Section CycleFacts.

Local Open Scope string_scope.
Local Open Scope list_scope.

Context {F : Type} `{PyFloat F}.
Variable table : list (string * list string).
Variable extractOne : string -> list string -> option (string * F).
Variable total_stake : F.

Local Abbreviation key := (match_key table extractOne).
Local Abbreviation row_key := (fun r : Row F => (row_t1 r, row_t2 r)).

Lemma settle_bucket_some (k : string * string) (booklines : list (EventOdds F))
  (row : Row F) :
  settle_bucket total_stake k booklines = Ok (Some row) ->
  (2 <= List.length booklines)%nat /\
  exists arb s1 s2 profit,
    detect_two_way_arbitrage booklines = Ok (Some arb) /\
    stake_split total_stake (arb_odds_team1 arb) (arb_odds_team2 arb)
    = Ok (s1, s2, profit) /\
    row = {| row_t1 := fst k; row_t2 := snd k;
             row_site1 := site_team1 arb; row_site2 := site_team2 arb;
             row_odds1 := arb_odds_team1 arb; row_odds2 := arb_odds_team2 arb;
             row_prob_sum := fround (prob_sum arb) 5;
             row_margin := fround (margin arb) 5;
             row_stake1 := s1; row_stake2 := s2; row_profit := profit |}.
Proof.
  destruct k as [t1 t2]. unfold settle_bucket.
  destruct (List.length booklines <? 2)%nat eqn:El; [discriminate|].
  apply Nat.ltb_ge in El. intros E. split; [exact El|].
  destruct (detect_two_way_arbitrage booklines) as [[arb|]|e] eqn:Ed;
    try discriminate.
  cbn [bind] in E.
  destruct (stake_split total_stake (arb_odds_team1 arb) (arb_odds_team2 arb))
    as [[[s1 s2] profit]|e] eqn:Es; [|discriminate].
  cbn [bind] in E. injection E as <-.
  exists arb, s1, s2, profit. repeat split. exact Es.
Qed.

Lemma settle_log (by_match : list ((string * string) * list (EventOdds F)))
  (log : list (Row F)) :
  settle total_stake by_match log =
  (log ++ fst (settle total_stake by_match []),
   snd (settle total_stake by_match [])).
Proof.
  revert log. induction by_match as [|[k b] rest IH]; intros log; cbn [settle].
  - now rewrite app_nil_r.
  - destruct (settle_bucket total_stake k b) as [[row|]|e].
    + rewrite (IH (log ++ [row])), (IH ([] ++ [row])). cbn [fst snd app].
      now rewrite <- app_assoc.
    + apply IH.
    + cbn. now rewrite app_nil_r.
Qed.

(** X8. The log only grows, and an exception stops the loop: the loop over
    the buckets leaves the log it started from followed by the rows it
    would add to an empty log; whether it ends in an exception does not
    depend on the log; and on more buckets it goes on from the log it has
    reached, unless an exception ended it, in which case the later buckets
    are not looked at and the rows written so far stay. *)
Theorem settle_appends
  (by_match later : list ((string * string) * list (EventOdds F)))
  (log : list (Row F)) :
  fst (settle total_stake by_match log)
  = log ++ fst (settle total_stake by_match []) /\
  snd (settle total_stake by_match log) = snd (settle total_stake by_match []) /\
  settle total_stake (by_match ++ later) log =
  match snd (settle total_stake by_match log) with
  | Some e => settle total_stake by_match log
  | None => settle total_stake later (fst (settle total_stake by_match log))
  end.
Proof.
  split; [now rewrite settle_log|]. split; [now rewrite settle_log|].
  revert log.
  induction by_match as [|[k b] rest IH]; intros log; cbn [app settle];
    [reflexivity|].
  destruct (settle_bucket total_stake k b) as [[row|]|e];
    [apply IH | apply IH | reflexivity].
Qed.

Lemma settle_rows (by_match : list ((string * string) * list (EventOdds F)))
  (row : Row F) :
  In row (fst (settle total_stake by_match [])) ->
  exists k b, In (k, b) by_match /\ settle_bucket total_stake k b = Ok (Some row).
Proof.
  induction by_match as [|[k b] rest IH]; cbn [settle]; [intros []|].
  destruct (settle_bucket total_stake k b) as [[r|]|e] eqn:E.
  - rewrite settle_log. cbn [fst app]. intros [<-|Hin].
    + exists k, b. split; [now left | exact E].
    + destruct (IH Hin) as (k' & b' & Hk & Hs). exists k', b'. split; [now right | exact Hs].
  - intros Hin. destruct (IH Hin) as (k' & b' & Hk & Hs).
    exists k', b'. split; [now right | exact Hs].
  - intros [].
Qed.

(** X9. Every row logged in a cycle comes from two quotations of that cycle
    with the row's key, among at least two quotations with that key: the
    row carries the site and odds of the first on side 1 and of the second
    on side 2, the reciprocals of the two odds sum strictly below 1, and
    the stakes and profit are those of [stake_split] on these odds. *)
Theorem cycle_rows_sound (all_events : list (EventOdds F)) (row : Row F)
  (Hrow : In row (fst (cycle table extractOne total_stake all_events))) :
  exists e1 e2 i1 i2,
    In e1 all_events /\ In e2 all_events /\
    key e1 = row_key row /\ key e2 = row_key row /\
    (2 <= List.length
            (List.filter (fun ev => key_eqb (key ev) (row_key row)) all_events))%nat /\
    row_site1 row = site e1 /\ row_odds1 row = odds_team1 e1 /\
    row_site2 row = site e2 /\ row_odds2 row = odds_team2 e2 /\
    implied_prob (row_odds1 row) = Ok i1 /\
    implied_prob (row_odds2 row) = Ok i2 /\
    flt (fadd i1 i2) (of_int 1) = true /\
    row_prob_sum row = fround (fadd i1 i2) 5 /\
    row_margin row = fround (fsub (of_int 1) (fadd i1 i2)) 5 /\
    stake_split total_stake (row_odds1 row) (row_odds2 row)
    = Ok (row_stake1 row, row_stake2 row, row_profit row).
Proof.
  unfold cycle in Hrow.
  destruct (settle_rows _ row Hrow) as (k & b & Hkb & Hs).
  destruct (settle_bucket_some k b row Hs) as (Hlen & arb & s1 & s2 & p & Hd & Hst & ->).
  destruct (detect_some b arb Hd)
    as (first & rest & i1 & i2 & Eb & Hi1 & Hi2 & Hlt & Earb).
  destruct (group_by_match_buckets table extractOne all_events) as (_ & Hb & _).
  destruct (Hb k b Hkb) as [_ Efilter].
  assert (Hin : forall e, In e b -> In e all_events /\ key e = k).
  { intros e He. rewrite Efilter in He. apply filter_In in He as [He Ek].
    split; [exact He | now apply key_eqb_eq]. }
  assert (I1 : In (py_max odds_team1 first rest) b)
    by (rewrite Eb; apply py_max_in).
  assert (I2 : In (py_max odds_team2 first rest) b)
    by (rewrite Eb; apply py_max_in).
  exists (py_max odds_team1 first rest), (py_max odds_team2 first rest), i1, i2.
  cbn [row_t1 row_t2 row_site1 row_site2 row_odds1 row_odds2 row_prob_sum
       row_margin row_stake1 row_stake2 row_profit].
  rewrite <- surjective_pairing, <- Efilter. subst arb.
  cbn [site_team1 site_team2 arb_odds_team1 arb_odds_team2 prob_sum margin] in *.
  repeat split; try reflexivity; try assumption; try apply Hin; assumption.
Qed.

Lemma settle_keys (by_match : list ((string * string) * list (EventOdds F))) :
  NoDup (map fst by_match) ->
  NoDup (map row_key (fst (settle total_stake by_match []))) /\
  forall r, In r (fst (settle total_stake by_match [])) ->
            In (row_key r) (map fst by_match).
Proof.
  induction by_match as [|[k b] rest IH]; cbn [settle map]; intros Hnd.
  - split; [constructor | intros r []].
  - inversion Hnd as [|k' l' Hk Hrest]; subst. destruct (IH Hrest) as [Hn Hin].
    destruct (settle_bucket total_stake k b) as [[row|]|e] eqn:E.
    + rewrite settle_log. cbn [fst app map].
      destruct (settle_bucket_some k b row E) as (_ & arb & s1 & s2 & p & _ & _ & ->).
      cbn [row_t1 row_t2]. rewrite <- surjective_pairing. split.
      * constructor; [|exact Hn]. intros Hk'. apply Hk.
        apply in_map_iff in Hk' as (r & Er & Hr). rewrite <- Er. now apply Hin.
      * intros r [<-|Hr]; [left; cbn; now rewrite <- surjective_pairing|].
        right. now apply Hin.
    + split; [exact Hn|]. intros r Hr. right. now apply Hin.
    + split; [constructor | intros r []].
Qed.

(** X10. A cycle logs at most one row for a match key. *)
Theorem cycle_one_row_per_key (all_events : list (EventOdds F)) :
  NoDup (map row_key (fst (cycle table extractOne total_stake all_events))).
Proof.
  unfold cycle. apply settle_keys.
  now destruct (group_by_match_buckets table extractOne all_events) as (Hnd & _).
Qed.

End CycleFacts.

Lemma cycle_rows_sound_witness :
  exists row e1 e2,
    In row (fst (cycle ALIASES Scenario.no_scorer 400%float Scenario.events)) /\
    In e1 Scenario.events /\ In e2 Scenario.events /\
    row_site1 row = site e1 /\ row_site2 row = site e2.
Proof.
  assert (Hrow : exists row,
             In row (fst (cycle ALIASES Scenario.no_scorer 400%float
                            Scenario.events)))
    by (eexists; vm_compute; left; reflexivity).
  destruct Hrow as [row Hrow].
  destruct (cycle_rows_sound ALIASES Scenario.no_scorer 400%float
              Scenario.events row Hrow)
    as (e1 & e2 & i1 & i2 & H1 & H2 & _ & _ & _ & Hs1 & _ & Hs2 & _).
  exists row, e1, e2. repeat split; assumption.
Defined.

(** ** Staking in exact arithmetic *)

Module ExactStaking.
Import ExactFacts.
Local Open Scope list_scope.
Local Open Scope Q_scope.

Lemma lt_div_iff (a b c : Q) : 0 < c -> (a < b / c <-> a * c < b).
Proof.
  intros Hc. split.
  - intros Hlt. apply (Qmult_lt_compat_r _ _ c Hc) in Hlt.
    assert (E : b / c * c == b) by (field; lra). now rewrite E in Hlt.
  - intros Hlt. now apply Qlt_shift_div_l.
Qed.

Lemma div_lt_iff (a b c : Q) : 0 < c -> (a / c < b <-> a < b * c).
Proof.
  intros Hc. split.
  - intros Hlt. apply (Qmult_lt_compat_r _ _ c Hc) in Hlt.
    assert (E : a / c * c == a) by (field; lra). now rewrite E in Hlt.
  - intros Hlt. now apply Qlt_shift_div_r.
Qed.

Lemma prob_sum_eq (o1 o2 : Q) :
  0 < o1 -> 0 < o2 -> 1 / o1 + 1 / o2 == (o1 + o2) / (o1 * o2).
Proof. intros H1 H2. field. split; lra. Qed.

Lemma odds_product_pos (o1 o2 : Q) : 0 < o1 -> 0 < o2 -> 0 < o1 * o2.
Proof. apply Qmult_lt_0_compat. Qed.



Lemma div_raises (x y : Q) : y == 0 -> Exact.div x y = Raise ZeroDivisionError.
Proof.
  intros Hy. unfold Exact.div.
  now rewrite (proj2 (Qeq_bool_iff y 0) Hy).
Qed.

Lemma prob_sum_nonzero (o1 o2 : Q) :
  ~ o1 == 0 -> ~ o2 == 0 -> (1 / o1 + 1 / o2 == 0 <-> o1 + o2 == 0).
Proof.
  intros H1 H2.
  assert (E : 1 / o1 + 1 / o2 == (o1 + o2) / (o1 * o2)) by (field; split; assumption).
  assert (HP : ~ o1 * o2 == 0).
  { intros HP. apply Qmult_integral in HP. tauto. }
  rewrite E. split; intros Hz.
  - assert (E' : o1 + o2 == (o1 + o2) / (o1 * o2) * (o1 * o2))
      by (field; split; assumption).
    rewrite E', Hz. ring.
  - rewrite Hz. field. split; assumption.
Qed.

Lemma raw_stakes_defined (B o1 o2 : Q) :
  ~ o1 == 0 -> ~ o2 == 0 -> ~ o1 + o2 == 0 ->
  raw_stakes B o1 o2 =
  Ok (B * ((1 / o1) / (1 / o1 + 1 / o2)),
      B - B * ((1 / o1) / (1 / o1 + 1 / o2))).
Proof.
  intros H1 H2 H12. unfold raw_stakes. cbn [fdiv Exact.exact of_int fadd fmul fsub].
  change (inject_Z 1) with 1.
  rewrite (div_nonzero 1 o1 H1), (div_nonzero 1 o2 H2). cbn [bind].
  rewrite div_nonzero; [reflexivity|].
  intros Hz. now apply (prob_sum_nonzero o1 o2 H1 H2) in Hz.
Qed.

Lemma stake_split_defined (B o1 o2 : Q) :
  ~ o1 == 0 -> ~ o2 == 0 -> ~ o1 + o2 == 0 ->
  exists r1 r2 profit, stake_split B o1 o2 = Ok (r1, r2, profit).
Proof.
  intros H1 H2 H12. unfold stake_split.
  rewrite (raw_stakes_defined B o1 o2 H1 H2 H12). cbn [bind].
  now do 3 eexists.
Qed.



Lemma round_comp (q q' : Q) : q == q' -> Exact.round q 2 == Exact.round q' 2.
Proof.
  intros E. unfold Exact.round.
  rewrite (round_half_even_comp (q * inject_Z (10 ^ 2)) (q' * inject_Z (10 ^ 2)));
    [reflexivity | now rewrite E].
Qed.

Lemma py_min_swap (a b a' b' : Q) :
  a == a' -> b == b' -> py_min a b == py_min b' a'.
Proof.
  intros Ea Eb.
  destruct (py_min_cases a b) as [[-> Hab]|[-> Hab]],
           (py_min_cases b' a') as [[-> Hba]|[-> Hba]]; lra.
Qed.





End ExactStaking.

(** ** Detection and the cycle in exact arithmetic *)

Section MaxSnoc.

Local Open Scope list_scope.

Context {F : Type} `{PyFloat F}.

Lemma py_max_snoc {A : Type} (key : A -> F) (first : A) (rest : list A) (e : A) :
  py_max key first (rest ++ [e]) =
  if flt (key (py_max key first rest)) (key e) then e else py_max key first rest.
Proof. unfold py_max. now rewrite fold_left_app. Qed.

End MaxSnoc.

Module ExactDetection.
Import ExactFacts ExactStaking.
Local Open Scope list_scope.
Local Open Scope Q_scope.

Lemma flt_lt (x y : Q) : flt x y = true <-> x < y.
Proof.
  cbn [flt Exact.exact]. rewrite negb_true_iff. split.
  - intros E. apply Qnot_le_lt. intros Hle. apply Qle_bool_iff in Hle. congruence.
  - intros Hlt. destruct (Qle_bool y x) eqn:E; [|reflexivity].
    apply Qle_bool_iff in E. lra.
Qed.

Lemma flt_ge (x y : Q) : flt x y = false <-> y <= x.
Proof.
  cbn [flt Exact.exact]. rewrite negb_false_iff. apply Qle_bool_iff.
Qed.

Lemma implied_prob_pos (o : Q) : 0 < o -> implied_prob o = Ok (1 / o).
Proof.
  intros Ho. unfold implied_prob. cbn [fdiv Exact.exact of_int].
  change (inject_Z 1) with 1. apply div_nonzero. lra.
Qed.

Lemma inv_le (a b : Q) : 0 < a -> a <= b -> 1 / b <= 1 / a.
Proof.
  intros Ha Hab. apply Qle_shift_div_l; [exact Ha|].
  assert (E : 1 / b * a == a / b) by (field; lra).
  rewrite E. apply Qle_shift_div_r; lra.
Qed.

Section Best.

Variable key : EventOdds Q -> Q.

Lemma py_max_snoc_ge (first : EventOdds Q) (rest : list (EventOdds Q))
  (e : EventOdds Q) :
  key (py_max key first rest) <= key (py_max key first (rest ++ [e])).
Proof.
  rewrite py_max_snoc.
  destruct (flt (key (py_max key first rest)) (key e)) eqn:E; [|lra].
  apply flt_lt in E. lra.
Qed.

End Best.



Lemma detect_positive (booklines : list (EventOdds Q)) :
  (forall x, In x booklines -> 0 < odds_team1 x /\ 0 < odds_team2 x) ->
  exists r,
    detect_two_way_arbitrage booklines = Ok r /\
    forall arb, r = Some arb -> 0 < arb_odds_team1 arb /\ 0 < arb_odds_team2 arb.
Proof.
  intros Hpos. destruct booklines as [|first rest].
  - exists None. split; [reflexivity | discriminate].
  - unfold detect_two_way_arbitrage.
    set (b1 := py_max odds_team1 first rest).
    set (b2 := py_max odds_team2 first rest).
    assert (P1 : 0 < odds_team1 b1) by (apply Hpos, py_max_in).
    assert (P2 : 0 < odds_team2 b2) by (apply Hpos, py_max_in).
    rewrite (implied_prob_pos _ P1), (implied_prob_pos _ P2). cbn [bind].
    destruct (flt _ _); eexists; (split; [reflexivity|]); [|discriminate].
    intros arb E. injection E as <-. now split.
Qed.

Section Cycle.

Variable table : list (string * list string).
Variable extractOne : string -> list string -> option (string * Q).
Variable total_stake : Q.

Lemma settle_bucket_positive (k : string * string) (booklines : list (EventOdds Q)) :
  (forall x, In x booklines -> 0 < odds_team1 x /\ 0 < odds_team2 x) ->
  exists r, settle_bucket total_stake k booklines = Ok r.
Proof.
  intros Hpos. unfold settle_bucket.
  destruct (List.length booklines <? 2)%nat; [now eexists|].
  destruct (detect_positive booklines Hpos) as (r & -> & Hr). cbn [bind].
  destruct r as [arb|]; [|now eexists].
  destruct (Hr arb eq_refl) as [P1 P2].
  destruct (stake_split_defined total_stake (arb_odds_team1 arb)
              (arb_odds_team2 arb)) as (r1 & r2 & p & ->); try lra.
  cbn [bind]. destruct k. now eexists.
Qed.

Lemma settle_positive (by_match : list ((string * string) * list (EventOdds Q))) :
  (forall k b x, In (k, b) by_match -> In x b ->
                 0 < odds_team1 x /\ 0 < odds_team2 x) ->
  snd (settle total_stake by_match []) = None.
Proof.
  induction by_match as [|[k b] rest IH]; intros Hpos; [reflexivity|].
  cbn [settle].
  destruct (settle_bucket_positive k b) as (r & ->).
  { intros x Hx. apply (Hpos k b x); [now left | exact Hx]. }
  assert (Hrest : snd (settle total_stake rest []) = None).
  { apply IH. intros k' b' x Hk Hx. apply (Hpos k' b' x); [now right | exact Hx]. }
  destruct r as [row|]; [|exact Hrest].
  rewrite settle_log. exact Hrest.
Qed.


End Cycle.


End ExactDetection.

(** ** Reading odds *)

Module ParseFacts.
Import Str StrFacts Parse.
Local Open Scope string_scope.

Lemma space_not_kept (c : ascii) : is_space c = true -> kept c = false.
Proof. destruct c as [[] [] [] [] [] [] [] []]; intros E; try discriminate; reflexivity. Qed.

Lemma filter_app (f : ascii -> bool) (a b : string) :
  filter f (a ++ b) = filter f a ++ filter f b.
Proof.
  induction a as [|c a IH]; simpl; [reflexivity|].
  destruct (f c); simpl; now rewrite IH.
Qed.

Lemma filter_filter (f g : ascii -> bool) (s : string) :
  filter f (filter g s) = filter (fun c => g c && f c) s.
Proof.
  induction s as [|c s IH]; simpl; [reflexivity|].
  destruct (g c); simpl; [destruct (f c)|]; now rewrite IH.
Qed.

Lemma filter_ext (f g : ascii -> bool) (s : string) :
  (forall c, f c = g c) -> filter f s = filter g s.
Proof.
  intros E. induction s as [|c s IH]; simpl; [reflexivity|].
  now rewrite E, IH.
Qed.

Lemma filter_idem (f : ascii -> bool) (s : string) :
  filter f (filter f s) = filter f s.
Proof.
  rewrite filter_filter. apply filter_ext. intros c. now destruct (f c).
Qed.

Lemma filter_lstrip (s : string) : filter kept (lstrip s) = filter kept s.
Proof.
  induction s as [|c s IH]; simpl; [reflexivity|].
  destruct (is_space c) eqn:E; [|reflexivity].
  now rewrite (space_not_kept c E).
Qed.

Lemma filter_rstrip (s : string) : filter kept (rstrip s) = filter kept s.
Proof.
  induction s as [|c s IH]; [reflexivity|].
  cbn [rstrip]. destruct (rstrip s) as [|d r].
  - cbn [filter] in *. rewrite <- IH.
    destruct (is_space c) eqn:E.
    + now rewrite (space_not_kept c E).
    + cbn [filter]. now destruct (kept c).
  - cbn [filter] in *. now rewrite IH.
Qed.

Lemma filter_strip (s : string) : filter kept (strip s) = filter kept s.
Proof. unfold strip. now rewrite filter_rstrip, filter_lstrip. Qed.

Lemma filter_replace_nbsp (s : string) :
  filter kept (replace (String (ascii_of_N 160) "") " " s) = filter kept s.
Proof.
  unfold replace. induction s as [|c s IH]; [reflexivity|].
  cbn [replace_from]. cbn [prefix].
  destruct (ascii_dec (ascii_of_N 160) c) as [<-|Hne].
  - replace (prefix "" s) with true by now destruct s.
    cbn [String.length Nat.sub append filter].
    change (kept " ") with false. change (kept (ascii_of_N 160)) with false.
    exact IH.
  - cbn [filter]. now rewrite IH.
Qed.

Lemma clean_decimal_kept (txt : string) :
  clean_decimal txt = decimal_point (filter kept txt).
Proof. unfold clean_decimal. now rewrite filter_replace_nbsp, filter_strip. Qed.

Section AnyFloat.

Context {F : Type} `{PyFloatLiteral F}.

(** X17. [parse_decimal] reads only the digits, points and commas of its
    argument: two texts with the same such characters in the same order
    give the same result, so a sign, a currency symbol, an exponent letter
    or a space anywhere in the text changes nothing. *)
Theorem parse_decimal_kept (txt txt' : string)
  (Hkept : filter kept txt = filter kept txt') :
  @parse_decimal F _ txt = parse_decimal txt'.
Proof. unfold parse_decimal. now rewrite !clean_decimal_kept, Hkept. Qed.

End AnyFloat.

Lemma parse_decimal_kept_witness :
  @parse_decimal float _ "-2.5" = parse_decimal "2.5" /\
  @parse_decimal float _ " 3.40 x (EUR)" = parse_decimal "3.40".
Proof.
  split; apply parse_decimal_kept; reflexivity.
Defined.

End ParseFacts.

Module ParseMore.
Import Str StrFacts Parse ParseFacts.
Local Open Scope string_scope.

Lemma digit_not_point (c : ascii) : is_decimal_digit c = true -> is_point c = false.
Proof. destruct c as [[] [] [] [] [] [] [] []]; intros E; try discriminate; reflexivity. Qed.

Lemma kept_cases (c : ascii) :
  kept c = is_decimal_digit c || superscript c || is_point c || is_comma c.
Proof. destruct c as [[] [] [] [] [] [] [] []]; reflexivity. Qed.

Lemma char_classes (c : ascii) :
  (is_decimal_digit c = true -> superscript c = false /\ is_point c = false /\ is_comma c = false) /\
  (superscript c = true -> is_point c = false /\ is_comma c = false) /\
  (is_point c = true -> is_comma c = false).
Proof. destruct c as [[] [] [] [] [] [] [] []]; repeat split; intros; try discriminate; reflexivity. Qed.

Lemma count_point (c : ascii) (s : string) :
  count "." (String c s) = if is_point c then S (count "." s) else count "." s.
Proof. reflexivity. Qed.

Lemma count_comma (c : ascii) (s : string) :
  count "," (String c s) = if is_comma c then S (count "," s) else count "," s.
Proof. reflexivity. Qed.

Lemma scan_literal_accepts (s : string) :
  forall seen d n k,
    scan_literal s seen d n k <> None <->
    all is_decimal_digit (filter not_point s) = true /\
    (count "." s <= (if seen then 0 else 1))%nat /\
    (d = true \/ any is_decimal_digit s = true).
Proof.
  induction s as [|c s IH]; intros seen d n k.
  - cbn. destruct d; split.
    + intros _. repeat split; [destruct seen; lia | now left].
    + discriminate.
    + congruence.
    + intros (_ & _ & [E|E]); discriminate.
  - cbn [scan_literal]. rewrite count_point. cbn [filter any all]. unfold not_point at 1.
    destruct (is_decimal_digit c) eqn:Ed.
    + rewrite (digit_not_point c Ed). cbn [negb all]. rewrite Ed. cbn [andb orb].
      rewrite IH. split.
      * intros (Ha & Hc & _). repeat split; auto.
      * intros (Ha & Hc & _). repeat split; auto.
    + destruct (is_point c) eqn:Ep; cbn [negb].
      * destruct seen.
        -- split; [congruence | intros (_ & Hc & _); lia].
        -- rewrite IH. cbn [orb]. split.
           ++ intros (Ha & Hc & Hd). repeat split; auto. lia.
           ++ intros (Ha & Hc & Hd). repeat split; auto. lia.
      * cbn [all]. rewrite Ed. cbn [andb]. split; [congruence|].
        intros (Ha & _). discriminate.
Qed.

Lemma float_literal_accepts (s : string) :
  float_literal s <> None <->
  all is_decimal_digit (filter not_point s) = true /\
  (count "." s <= 1)%nat /\ any is_decimal_digit s = true.
Proof.
  unfold float_literal. rewrite scan_literal_accepts. split.
  - intros (Ha & Hc & [E|E]); [discriminate | now repeat split].
  - intros (Ha & Hc & Hd). repeat split; auto.
Qed.

End ParseMore.

Module ParsePoint.
Import Str StrFacts Parse ParseFacts ParseMore.
Local Open Scope string_scope.

Lemma split_nonempty (s : string) : split "." s <> [].
Proof.
  induction s as [|c s IH]; cbn [split]; [discriminate|].
  destruct (Ascii.eqb c "."); [discriminate|].
  destruct (split "." s); [contradiction | discriminate].
Qed.

Lemma split_length (s : string) : List.length (split "." s) = S (count "." s).
Proof.
  induction s as [|c s IH]; [reflexivity|].
  rewrite count_point. cbn [split]. change (Ascii.eqb c ".") with (is_point c).
  destruct (is_point c); cbn [List.length]; [now rewrite IH|].
  destruct (split "." s); cbn [List.length] in *; [discriminate | exact IH].
Qed.

Lemma join_split (s : string) : join (split "." s) = filter not_point s.
Proof.
  induction s as [|c s IH]; [reflexivity|].
  cbn [split filter]. unfold not_point at 1. change (Ascii.eqb c ".") with (is_point c).
  destruct (is_point c); cbn [negb].
  - cbn [join fold_right append]. exact IH.
  - destruct (split "." s) as [|part parts] eqn:E; [now apply split_nonempty in E|].
    cbn [join fold_right append] in *. now rewrite IH.
Qed.

(** The text rebuilt on line 108 from the parts of a split. *)
Lemma rebuilt (c : ascii) (s : string) :
  hd "" (split "." (String c s)) ++ "." ++ join (tl (split "." (String c s))) =
  if is_point c then "." ++ filter not_point s
  else String c (hd "" (split "." s) ++ "." ++ join (tl (split "." s))).
Proof.
  cbn [split]. change (Ascii.eqb c ".") with (is_point c).
  destruct (is_point c); cbn [hd tl].
  - now rewrite join_split.
  - destruct (split "." s) as [|part parts] eqn:E; [now apply split_nonempty in E|].
    reflexivity.
Qed.

Lemma rebuilt_app (a r : string) :
  count "." a = O ->
  hd "" (split "." (a ++ "." ++ r)) ++ "." ++ join (tl (split "." (a ++ "." ++ r)))
  = a ++ "." ++ filter not_point r.
Proof.
  induction a as [|c a IH]; intros Hc.
  - cbn [append]. now rewrite rebuilt.
  - rewrite count_point in Hc. change (String c a ++ "." ++ r) with (String c (a ++ "." ++ r)).
    rewrite rebuilt. destruct (is_point c); [discriminate|].
    now rewrite (IH Hc).
Qed.

Lemma filter_not_point_absent (s : string) :
  count "." s = O -> filter not_point s = s.
Proof.
  induction s as [|c s IH]; [reflexivity|]. rewrite count_point. cbn [filter].
  unfold not_point at 1. destruct (is_point c); [discriminate|].
  intros Hc. cbn [negb]. now rewrite IH.
Qed.

Lemma count_app (c : ascii) (a b : string) : count c (a ++ b) = (count c a + count c b)%nat.
Proof.
  induction a as [|d a IH]; [reflexivity|]. cbn [append count].
  destruct (Ascii.eqb d c); cbn; now rewrite IH.
Qed.

Lemma count_filter (f : ascii -> bool) (c : ascii) (s : string) :
  f c = true -> count c (filter f s) = count c s.
Proof.
  intros Hf. induction s as [|d s IH]; [reflexivity|]. cbn [filter count].
  destruct (Ascii.eqb d c) eqn:E.
  - apply Ascii.eqb_eq in E. subst d. rewrite Hf. cbn [count].
    rewrite Ascii.eqb_refl. now rewrite IH.
  - destruct (f d); [cbn [count]; rewrite E|]; exact IH.
Qed.

Lemma count_filter_not_point (s : string) : count "." (filter not_point s) = O.
Proof.
  induction s as [|c s IH]; [reflexivity|]. cbn [filter]. unfold not_point at 1.
  destruct (is_point c) eqn:E; cbn [negb]; [exact IH|].
  rewrite count_point, E. exact IH.
Qed.

Lemma filter_not_point_cons (c : ascii) (s : string) :
  filter not_point (String c s) =
  if is_point c then filter not_point s else String c (filter not_point s).
Proof. cbn [filter]. unfold not_point at 1. now destruct (is_point c). Qed.

Lemma rebuilt_spec (s : string) :
  filter not_point (hd "" (split "." s) ++ "." ++ join (tl (split "." s)))
  = filter not_point s /\
  count "." (hd "" (split "." s) ++ "." ++ join (tl (split "." s))) = 1%nat.
Proof.
  induction s as [|c s [IH1 IH2]]; [split; reflexivity|].
  rewrite rebuilt. destruct (is_point c) eqn:Ep.
  - change ("." ++ filter not_point s) with (String "." (filter not_point s)).
    rewrite !filter_not_point_cons, Ep. change (is_point ".") with true.
    rewrite filter_idem, count_point. change (is_point ".") with true.
    now rewrite count_filter_not_point.
  - rewrite !filter_not_point_cons, Ep, count_point, Ep. now rewrite IH1.
Qed.

(** What the repair of the points, lines 106-108, leaves. *)
Lemma points_repaired (s : string) :
  let out := if (2 <? List.length (split "." s))%nat
             then hd "" (split "." s) ++ "." ++ join (tl (split "." s))
             else s in
  filter not_point out = filter not_point s /\ (count "." out <= 1)%nat.
Proof.
  cbv zeta. rewrite split_length.
  destruct (2 <? S (count "." s))%nat eqn:E.
  - destruct (rebuilt_spec s) as [E1 E2]. split; [exact E1 | lia].
  - apply Nat.ltb_ge in E. split; [reflexivity | lia].
Qed.

Lemma replace_comma_cons (c : ascii) (s : string) :
  replace "," "." (String c s) =
  String (if is_comma c then "."%char else c) (replace "," "." s).
Proof.
  unfold replace. cbn [replace_from prefix]. unfold is_comma.
  destruct (ascii_dec "," c) as [<-|Hne].
  - replace (prefix "" s) with true by now destruct s. reflexivity.
  - replace (Ascii.eqb c ",") with false; [reflexivity|].
    symmetry. apply Ascii.eqb_neq. congruence.
Qed.

Lemma replace_comma_filter (s : string) :
  replace "," "." (filter kept s) = filter kept (replace "," "." s).
Proof.
  induction s as [|c s IH]; [reflexivity|].
  destruct (is_comma c) eqn:Ec.
  - unfold is_comma in Ec. apply Ascii.eqb_eq in Ec. subst c.
    change (filter kept (String "," s)) with (String "," (filter kept s)).
    rewrite !replace_comma_cons. change (is_comma ",") with true. cbv iota.
    change (filter kept (String "." (replace "," "." s)))
      with (String "." (filter kept (replace "," "." s))).
    now rewrite IH.
  - rewrite (replace_comma_cons c s), Ec. cbn [filter].
    destruct (kept c); [rewrite replace_comma_cons, Ec|]; now rewrite IH.
Qed.

Lemma replace_comma_count (s : string) : count "," (replace "," "." s) = O.
Proof.
  induction s as [|c s IH]; [reflexivity|].
  rewrite replace_comma_cons, count_comma.
  destruct (is_comma c) eqn:Ec; [exact IH | now rewrite Ec].
Qed.

Lemma replace_comma_points (s : string) :
  filter not_point (replace "," "." s)
  = filter (fun c => not_point c && negb (is_comma c)) s.
Proof.
  induction s as [|c s IH]; [reflexivity|].
  rewrite replace_comma_cons. cbn [filter].
  destruct (is_comma c) eqn:Ec.
  - change (not_point ".") with false. rewrite andb_false_r. exact IH.
  - cbn [negb]. rewrite andb_true_r. destruct (not_point c); now rewrite IH.
Qed.

End ParsePoint.

Module ParseTheorems.
Import Str StrFacts Parse ParseFacts ParseMore ParsePoint.
Local Open Scope string_scope.

Lemma any_filter (f g : ascii -> bool) (s : string) :
  (forall c, g c = true -> f c = true) -> any g (filter f s) = any g s.
Proof.
  intros Hgf. induction s as [|c s IH]; [reflexivity|]. cbn [filter any].
  destruct (f c) eqn:Ef; cbn [any]; rewrite IH; [reflexivity|].
  destruct (g c) eqn:Eg; [|reflexivity]. rewrite (Hgf c Eg) in Ef. discriminate.
Qed.

Lemma all_digits (s : string) :
  all is_decimal_digit (filter is_digit s) = negb (any superscript s).
Proof.
  induction s as [|c s IH]; [reflexivity|]. cbn [filter any]. unfold superscript at 1.
  destruct (is_digit c); cbn [all andb orb]; [|exact IH].
  rewrite IH. now destruct (is_decimal_digit c).
Qed.

Lemma all_digits_commas (s : string) :
  all is_decimal_digit (filter (fun c => kept c && not_point c) s)
  = negb (any superscript s) && (count "," s =? 0)%nat.
Proof.
  induction s as [|c s IH]; [reflexivity|]. rewrite count_comma. cbn [filter any].
  rewrite kept_cases. unfold not_point.
  destruct (char_classes c) as (Hd & Hs & Hp).
  destruct (is_decimal_digit c) eqn:Ed.
  - destruct (Hd eq_refl) as (-> & -> & ->). cbn. rewrite Ed. exact IH.
  - destruct (superscript c) eqn:Es.
    + destruct (Hs eq_refl) as (-> & ->). cbn. now rewrite Ed.
    + destruct (is_point c) eqn:Ep.
      * rewrite (Hp eq_refl). cbn. exact IH.
      * destruct (is_comma c); cbn; [rewrite Ed; cbn; now rewrite andb_false_r|exact IH].
Qed.

Lemma digits_only (s : string) :
  filter (fun c => kept c && (not_point c && negb (is_comma c))) s = filter is_digit s.
Proof.
  apply filter_ext. intros c. unfold not_point.
  destruct c as [[] [] [] [] [] [] [] []]; reflexivity.
Qed.

Lemma decimal_digit_kept (c : ascii) : is_decimal_digit c = true -> kept c = true.
Proof. destruct c as [[] [] [] [] [] [] [] []]; intros E; try discriminate; reflexivity. Qed.

Lemma decimal_digit_is_digit (c : ascii) : is_decimal_digit c = true -> is_digit c = true.
Proof. destruct c as [[] [] [] [] [] [] [] []]; intros E; try discriminate; reflexivity. Qed.

Lemma decimal_digit_not_point (c : ascii) :
  is_decimal_digit c = true -> not_point c = true.
Proof. intros E. unfold not_point. now rewrite (digit_not_point c E). Qed.

(** Which cleaned texts [float] accepts, in terms of the text before the
    repair of the points. *)
Lemma repaired_accepted (keep' : string) :
  float_literal
    (if (2 <? List.length (split "." keep'))%nat
     then hd "" (split "." keep') ++ "." ++ join (tl (split "." keep'))
     else keep') <> None <->
  all is_decimal_digit (filter not_point keep') = true /\
  any is_decimal_digit keep' = true.
Proof.
  destruct (points_repaired keep') as [E1 E2]. cbv zeta in E1, E2.
  rewrite float_literal_accepts, E1.
  rewrite <- (any_filter not_point is_decimal_digit _ decimal_digit_not_point), E1.
  rewrite (any_filter not_point is_decimal_digit _ decimal_digit_not_point).
  tauto.
Qed.

Lemma decimal_point_accepted (txt : string) :
  float_literal (clean_decimal txt) <> None <->
  any is_decimal_digit txt = true /\ any superscript txt = false /\
  (count "," txt = 0 \/ (count "," txt = 1 /\ count "." txt = 0))%nat.
Proof.
  rewrite clean_decimal_kept. unfold decimal_point.
  rewrite !(count_filter kept) by reflexivity.
  destruct ((count "," txt =? 1) && (count "." txt =? 0))%nat eqn:Ec.
  - apply andb_true_iff in Ec as [C1 C0].
    apply Nat.eqb_eq in C1. apply Nat.eqb_eq in C0.
    rewrite repaired_accepted, replace_comma_points, filter_filter, digits_only.
    rewrite all_digits, negb_true_iff.
    rewrite <- (any_filter not_point is_decimal_digit _ decimal_digit_not_point).
    rewrite replace_comma_points, filter_filter, digits_only.
    rewrite (any_filter is_digit is_decimal_digit _ decimal_digit_is_digit).
    split; [intros [Hs Hd]; repeat split; auto | tauto].
  - rewrite repaired_accepted, filter_filter, all_digits_commas.
    rewrite (any_filter kept is_decimal_digit _ decimal_digit_kept).
    rewrite andb_true_iff, negb_true_iff, Nat.eqb_eq.
    apply andb_false_iff in Ec.
    rewrite Nat.eqb_neq, Nat.eqb_neq in Ec.
    split.
    + intros [[Hs Hc] Hd]. repeat split; auto.
    + intros (Hd & Hs & [Hc|[Hc1 Hc0]]); [tauto | lia].
Qed.

Section AnyFloat.

Context {F : Type} `{PyFloatLiteral F}.

Lemma parse_decimal_none (txt : string) :
  @parse_decimal F _ txt = None <-> float_literal (clean_decimal txt) = None.
Proof.
  unfold parse_decimal.
  destruct (float_literal (clean_decimal txt)) as [[n k]|]; split; congruence.
Qed.

(** X18. [parse_decimal] raises, by the [ValueError] of [float], exactly
    when the text has no digit 0-9, or has a superscript digit, or has two
    or more commas, or has one comma together with a point. *)
Theorem parse_decimal_raises (txt : string) :
  @parse_decimal F _ txt = None <->
  (any is_decimal_digit txt = false \/ any superscript txt = true \/
   (2 <= count "," txt)%nat \/
   (count "," txt = 1%nat /\ (1 <= count "." txt)%nat)).
Proof.
  rewrite parse_decimal_none.
  pose proof (decimal_point_accepted txt) as Hacc.
  destruct (float_literal (clean_decimal txt)) as [r|] eqn:E.
  - assert (Hok : Some r <> None) by discriminate.
    apply Hacc in Hok as (Hd & Hs & Hc). split; [discriminate|].
    intros [Hn|[Hn|[Hn|[Hn1 Hn0]]]]; try congruence; lia.
  - split; [intros _|reflexivity].
    destruct (any is_decimal_digit txt) eqn:Hd; [|now left].
    destruct (any superscript txt) eqn:Hs; [now right; left|].
    right. right.
    destruct (le_lt_dec 2 (count "," txt)) as [Hc|Hc]; [now left|right].
    destruct (count "," txt) as [|[|n]] eqn:Ec; [|split; [reflexivity|]|lia].
    + exfalso. apply (proj2 Hacc); [|reflexivity]. repeat split; auto.
    + destruct (count "." txt) as [|m] eqn:Ep; [|lia].
      exfalso. apply (proj2 Hacc); [|reflexivity]. repeat split; auto.
Qed.

(** X19. A text with a single comma and no point is read with the comma as
    the decimal point. *)
Theorem parse_decimal_comma (txt : string)
  (Hcomma : count "," txt = 1%nat) (Hpoint : count "." txt = 0%nat) :
  @parse_decimal F _ txt = parse_decimal (replace "," "." txt).
Proof.
  unfold parse_decimal. rewrite !clean_decimal_kept. unfold decimal_point.
  rewrite <- replace_comma_filter, replace_comma_count.
  rewrite !(count_filter kept) by reflexivity.
  rewrite Hcomma, Hpoint. reflexivity.
Qed.

(** X20. In a text without commas, of several points only the first
    counts: the later ones are dropped. *)
Theorem parse_decimal_points (a r : string)
  (Ha : count "." a = 0%nat) (Hcomma : count "," (a ++ r) = 0%nat) :
  @parse_decimal F _ (a ++ "." ++ r)
  = parse_decimal (a ++ "." ++ filter not_point r).
Proof.
  assert (Hclean : forall r', count "," (a ++ r') = 0%nat ->
            clean_decimal (a ++ "." ++ r')
            = filter kept a ++ "." ++ filter not_point (filter kept r')).
  { intros r' Hc. rewrite clean_decimal_kept, !ParseFacts.filter_app.
    change (filter kept ".") with ".". unfold decimal_point.
    assert (C : count "," (filter kept a ++ "." ++ filter kept r') = 0%nat).
    { rewrite !count_app, !(count_filter kept) by reflexivity.
      rewrite count_app in Hc. cbn. lia. }
    rewrite C. cbn [Nat.eqb andb]. rewrite split_length.
    assert (Pa : count "." (filter kept a) = 0%nat)
      by (rewrite (count_filter kept) by reflexivity; exact Ha).
    destruct (2 <? S (count "." (filter kept a ++ "." ++ filter kept r')))%nat eqn:E.
    - now apply rebuilt_app.
    - apply Nat.ltb_ge in E. rewrite !count_app, Pa in E. cbn in E.
      rewrite filter_not_point_absent; [reflexivity | lia]. }
  unfold parse_decimal. rewrite (Hclean r Hcomma), Hclean.
  - rewrite !filter_filter.
    rewrite (filter_ext (fun c => not_point c && (kept c && not_point c))
               (fun c => kept c && not_point c)); [reflexivity|].
    intros c. destruct (kept c), (not_point c); reflexivity.
  - rewrite count_app in *. 
    assert (Hle : (count "," (filter not_point r) <= count "," r)%nat).
    { clear. induction r as [|c r IH]; [cbn; lia|].
      rewrite filter_not_point_cons, count_comma.
      destruct (is_point c); [destruct (is_comma c); lia|].
      rewrite count_comma. destruct (is_comma c); lia. }
    lia.
Qed.

End AnyFloat.

Lemma parse_decimal_raises_witness :
  @parse_decimal float _ "1,234.56" = None /\
  @parse_decimal float _ "n/a" = None.
Proof.
  split; apply (proj2 (parse_decimal_raises _)).
  - right. right. right. split; [reflexivity | vm_compute; lia].
  - left. reflexivity.
Defined.

Lemma parse_decimal_comma_witness :
  @parse_decimal float _ "1,80" = parse_decimal (replace "," "." "1,80").
Proof. apply (parse_decimal_comma "1,80"); reflexivity. Defined.

Lemma parse_decimal_points_witness :
  @parse_decimal float _ ("1" ++ "." ++ "234.5")
  = parse_decimal ("1" ++ "." ++ filter not_point "234.5").
Proof. apply (parse_decimal_points "1" "234.5"); reflexivity. Defined.

Lemma scan_literal_nonneg (s : string) :
  forall seen d n k n' k',
    (0 <= n)%Z -> scan_literal s seen d n k = Some (n', k') -> (0 <= n')%Z.
Proof.
  induction s as [|c s IH]; intros seen d n k n' k' Hn; cbn [scan_literal].
  - destruct d; [|discriminate]. intros E. injection E as <- _. exact Hn.
  - destruct (is_decimal_digit c) eqn:Ed.
    + apply IH.
      assert (0 <= digit_value c)%Z.
      { unfold is_decimal_digit in Ed. unfold digit_value.
        apply andb_true_iff in Ed as [Ed _]. apply N.leb_le in Ed. lia. }
      lia.
    + destruct (is_point c); [|discriminate].
      destruct seen; [discriminate|]. now apply IH.
Qed.



End ParseTheorems.

Module ParseValue.
Import Str StrFacts Parse ParseFacts ParseMore ParsePoint ParseTheorems.
Local Open Scope string_scope.

Lemma append_empty_r (s : string) : s ++ "" = s.
Proof. induction s as [|c s IH]; [reflexivity|]. cbn [append]. now rewrite IH. Qed.

Lemma number_from_app (a b : string) (n : Z) :
  number_from n (a ++ b) = number_from (number_from n a) b.
Proof. revert n. induction a as [|c a IH]; intros n; [reflexivity|]. apply IH. Qed.

Lemma scan_digits (s t : string) :
  all is_decimal_digit s = true ->
  forall seen d n k,
    scan_literal (s ++ t) seen d n k =
    scan_literal t seen (d || negb (String.eqb s "")) (number_from n s)
      (if seen then k + String.length s else k).
Proof.
  induction s as [|c s IH]; intros Hs seen d n k.
  - cbn. rewrite orb_false_r. now destruct seen; rewrite ?Nat.add_0_r.
  - cbn [all] in Hs. apply andb_true_iff in Hs as [Hc Hs].
    cbn [append scan_literal]. rewrite Hc, (IH Hs).
    cbn [number_from String.length String.eqb orb negb]. rewrite orb_true_r.
    destruct seen; [f_equal; lia | reflexivity].
Qed.

Lemma digits_facts (s : string) :
  all is_decimal_digit s = true ->
  filter kept s = s /\ count "." s = O /\ count "," s = O.
Proof.
  induction s as [|c s IH]; [now repeat split|]. cbn [all]. intros Hs.
  apply andb_true_iff in Hs as [Hc Hs]. destruct (IH Hs) as (E1 & E2 & E3).
  destruct (char_classes c) as (Hd & _). destruct (Hd Hc) as (_ & Hp & Hm).
  cbn [filter]. rewrite (decimal_digit_kept c Hc), E1, count_point, count_comma, Hp, Hm.
  now repeat split.
Qed.

Section AnyFloat.

Context {F : Type} `{PyFloatLiteral F}.

(** X22. A text of digits 0-9 around a point is read as the number the digits
    spell: the integer written by all the digits, scaled by the number of
    digits behind the point; a text of digits alone is read as that
    integer. *)
Theorem parse_decimal_value (a b : string)
  (Ha : all is_decimal_digit a = true) (Hb : all is_decimal_digit b = true)
  (Hne : a ++ b <> "") :
  @parse_decimal F _ (a ++ "." ++ b)
  = Some (float_of_decimal (number (a ++ b)) (String.length b)) /\
  (a <> "" -> @parse_decimal F _ a = Some (float_of_decimal (number a) 0)).
Proof.
  destruct (digits_facts a Ha) as (Ka & Pa & Ca).
  destruct (digits_facts b Hb) as (Kb & Pb & Cb).
  split.
  - unfold parse_decimal. rewrite clean_decimal_kept, !ParseFacts.filter_app, Ka, Kb.
    change (filter kept ".") with ".". unfold decimal_point.
    rewrite !count_app, Ca, Cb, Pa, Pb.
    change (count "," ".") with 0%nat. change (count "." ".") with 1%nat.
    cbn [Nat.add Nat.eqb andb].
    rewrite split_length, !count_app, Pa, Pb. change (count "." ".") with 1%nat.
    cbn [Nat.add Nat.ltb Nat.leb].
    unfold float_literal. rewrite (scan_digits a ("." ++ b) Ha).
    change ("." ++ b) with (String "." b). cbn [scan_literal].
    change (is_decimal_digit ".") with false. change (is_point ".") with true.
    cbn [orb]. rewrite <- (append_empty_r b) at 1.
    rewrite (scan_digits b "" Hb). cbn [scan_literal Nat.add].
    destruct (negb (String.eqb a "") || negb (String.eqb b "")) eqn:E.
    + unfold number. now rewrite number_from_app.
    + apply orb_false_iff in E as [E1 E2]. apply negb_false_iff in E1, E2.
      apply String.eqb_eq in E1, E2. subst. now contradiction Hne.
  - intros Hna. unfold parse_decimal. rewrite clean_decimal_kept, Ka.
    unfold decimal_point. rewrite Ca, Pa. cbn [Nat.eqb andb].
    rewrite split_length, Pa. cbn [Nat.ltb Nat.leb].
    unfold float_literal. rewrite <- (append_empty_r a) at 1.
    rewrite (scan_digits a "" Ha). cbn [scan_literal orb].
    destruct (String.eqb a "") eqn:E; [apply String.eqb_eq in E; contradiction|].
    reflexivity.
Qed.

End AnyFloat.

Lemma parse_decimal_value_witness :
  @parse_decimal float _ "2.10" = Some 2.10%float /\
  @parse_decimal Q _ "2.10" = Some (210 / 100)%Q.
Proof.
  split.
  - destruct (@parse_decimal_value float _ "2" "10") as [E _];
      [reflexivity | reflexivity | discriminate |].
    refine (eq_trans E _). vm_compute. reflexivity.
  - destruct (@parse_decimal_value Q _ "2" "10") as [E _];
      [reflexivity | reflexivity | discriminate |].
    exact E.
Defined.

End ParseValue.

(** ** Extraction and polling *)

Section ExtractionFacts.

Local Open Scope string_scope.
Local Open Scope list_scope.

Context {F : Type} `{PyFloat F} `{PyFloatLiteral F}.
Variable node : Type.
Variable BeautifulSoup : string -> node.
Variable select : node -> string -> option (list node).
Variable select_one : node -> string -> option (option node).
Variable get_text : node -> string.
Variable dt_parse : string -> option Z.
Variable page_content : string -> option string.

Local Abbreviation first_text := (_first_text node select_one get_text).
Local Abbreviation extract_one := (extract_match node select_one get_text dt_parse).
Local Abbreviation extract_all := (extract_matches node select_one get_text dt_parse).
Local Abbreviation fetch_from :=
  (fetch node BeautifulSoup select select_one get_text dt_parse page_content).
Local Abbreviation poll_all :=
  (poll node BeautifulSoup select select_one get_text dt_parse page_content).

(** X23. [_first_text] returns the text of the first selector, in list order,
    that selects an element with a non-empty text: the text returned is
    never empty, every earlier selector selected nothing or an element
    without text, and [None] is returned only when that holds of all the
    selectors. *)
Theorem first_text_first (nd : node) (sels : list string) :
  (forall txt, first_text nd sels = Some (Some txt) ->
     txt <> "" /\
     exists before sel el after,
       sels = before ++ sel :: after /\
       select_one nd sel = Some (Some el) /\ get_text el = txt /\
       forall s, In s before ->
         select_one nd s = Some None \/
         exists el', select_one nd s = Some (Some el') /\ get_text el' = "") /\
  (first_text nd sels = Some None ->
     forall s, In s sels ->
       select_one nd s = Some None \/
       exists el', select_one nd s = Some (Some el') /\ get_text el' = "").
Proof.
  induction sels as [|sel rest [IH1 IH2]]; cbn [_first_text].
  - split; [discriminate | intros _ s []].
  - destruct (select_one nd sel) as [[el|]|] eqn:Es.
    + destruct (String.eqb (get_text el) "") eqn:Et.
      * apply String.eqb_eq in Et. split.
        -- intros txt Htxt. destruct (IH1 txt Htxt) as (Hne & before & s & e & after & -> & Hs & Hg & Hb).
           split; [exact Hne|]. exists (sel :: before), s, e, after.
           repeat split; auto. intros s' [<-|Hs']; [right; now exists el | now apply Hb].
        -- intros Hnone s [<-|Hs]; [right; now exists el | now apply IH2].
      * apply String.eqb_neq in Et. split; [|discriminate].
        intros txt E. injection E as <-. split; [exact Et|].
        exists [], sel, el, rest. repeat split; auto. intros s [].
    + split.
      * intros txt Htxt. destruct (IH1 txt Htxt) as (Hne & before & s & e & after & -> & Hs & Hg & Hb).
        split; [exact Hne|]. exists (sel :: before), s, e, after.
        repeat split; auto. intros s' [<-|Hs']; [now left | now apply Hb].
      * intros Hnone s [<-|Hs]; [now left | now apply IH2].
    + split; discriminate.
Qed.

Lemma first_text_nonempty (nd : node) (sels : list string) (txt : string) :
  first_text nd sels = Some (Some txt) -> txt <> "".
Proof.
  induction sels as [|sel rest IH]; cbn [_first_text]; [discriminate|].
  destruct (select_one nd sel) as [[el|]|]; [|exact IH|discriminate].
  destruct (String.eqb (get_text el) "") eqn:Et; [exact IH|].
  apply String.eqb_neq in Et. intros E. now injection E as <-.
Qed.

Lemma extract_match_record (self : Adapter) (m : node) (ev : EventOdds F) :
  extract_one self m = Some ev ->
  site ev = site_name self /\ sport ev = "CS2" /\ league ev = None /\ raw ev = [] /\
  team1 ev <> "" /\ team2 ev <> "" /\
  match_id ev = ("pw-" ++ team1 ev ++ "-" ++ team2 ev)%string /\
  exists o1_txt o2_txt,
    o1_txt <> "" /\ o2_txt <> "" /\
    parse_decimal o1_txt = Some (odds_team1 ev) /\
    parse_decimal o2_txt = Some (odds_team2 ev).
Proof.
  unfold extract_match.
  destruct (first_text m (dict_get_default (selectors self) "team1"))
    as [[t1|]|] eqn:T1; try discriminate.
  destruct (first_text m (dict_get_default (selectors self) "team2"))
    as [[t2|]|] eqn:T2; try discriminate.
  destruct (first_text m (dict_get_default (selectors self) "odds1"))
    as [[o1_txt|]|] eqn:O1; try discriminate.
  destruct (first_text m (dict_get_default (selectors self) "odds2"))
    as [[o2_txt|]|] eqn:O2; try discriminate.
  destruct (parse_decimal o1_txt) as [o1|] eqn:P1; [|discriminate].
  destruct (parse_decimal o2_txt) as [o2|] eqn:P2; [|discriminate].
  apply first_text_nonempty in T1, T2, O1, O2.
  assert (Hbuild : forall start,
    Some {| match_id := ("pw-" ++ t1 ++ "-" ++ t2)%string; site := site_name self;
            sport := "CS2"; league := None; start_time := start;
            team1 := t1; team2 := t2; odds_team1 := o1; odds_team2 := o2;
            raw := [] |} = Some ev ->
    site ev = site_name self /\ sport ev = "CS2" /\ league ev = None /\ raw ev = [] /\
    team1 ev <> "" /\ team2 ev <> "" /\
    match_id ev = ("pw-" ++ team1 ev ++ "-" ++ team2 ev)%string /\
    exists a b, a <> "" /\ b <> "" /\
      parse_decimal a = Some (odds_team1 ev) /\
      parse_decimal b = Some (odds_team2 ev)).
  { intros start E. injection E as <-. cbn. repeat split; auto.
    exists o1_txt, o2_txt. repeat split; auto. }
  destruct (dict_get_default (selectors self) "start") as [|s0 ss]; [apply Hbuild|].
  destruct (first_text m (s0 :: ss)) as [[st|]|]; [apply Hbuild|apply Hbuild|discriminate].
Qed.

Lemma extract_matches_in (self : Adapter) (containers : list node) (ev : EventOdds F) :
  In ev (extract_all self containers) ->
  exists m, In m containers /\ extract_one self m = Some ev.
Proof.
  induction containers as [|m rest IH]; cbn [extract_matches]; [intros []|].
  destruct (extract_one self m) as [ev'|] eqn:E.
  - intros [<-|Hin]; [exists m; split; [now left | exact E]|].
    destruct (IH Hin) as (m' & Hm & E'). exists m'. split; [now right | exact E'].
  - intros Hin. destruct (IH Hin) as (m' & Hm & E'). exists m'. split; [now right | exact E'].
Qed.

Lemma fetch_record (self : Adapter) (ev : EventOdds F) :
  In ev (fetch_from self) ->
  exists m, extract_one self m = Some ev.
Proof.
  unfold fetch. destruct (page_content (url self)) as [html|]; [|intros []].
  unfold _extract. destruct (dict_get (selectors self) "containers") as [csels|]; [|intros []].
  destruct (find_containers node select (BeautifulSoup html) csels) as [cs|]; [|intros []].
  intros Hin. destruct (extract_matches_in self cs ev Hin) as (m & _ & E). now exists m.
Qed.

(** X24. Every quotation gathered by polling is well formed: it carries the
    site name of one of the adapters, the sport "CS2" and no league, two
    non-empty team names, the match id built from them, and odds that
    [parse_decimal] read from non-empty texts. *)
Theorem poll_records (adapters : list Adapter) (ev : EventOdds F)
  (Hev : In ev (poll_all adapters)) :
  In (site ev) (map site_name adapters) /\
  sport ev = "CS2" /\ league ev = None /\ raw ev = [] /\
  team1 ev <> "" /\ team2 ev <> "" /\
  match_id ev = ("pw-" ++ team1 ev ++ "-" ++ team2 ev)%string /\
  exists o1_txt o2_txt,
    o1_txt <> "" /\ o2_txt <> "" /\
    parse_decimal o1_txt = Some (odds_team1 ev) /\
    parse_decimal o2_txt = Some (odds_team2 ev).
Proof.
  unfold poll in Hev. apply in_flat_map in Hev as (self & Hself & Hin).
  destruct (fetch_record self ev Hin) as (m & E).
  destruct (extract_match_record self m ev E) as (Hs & Hrest).
  split; [|exact Hrest]. rewrite Hs. now apply in_map.
Qed.

Section Run.

Variable table : list (string * list string).
Variable extractOne : string -> list string -> option (string * F).
Variable total_stake : F.

(** X25. Every row logged by a cycle over polled quotations names, on each
    side, the site of one of the adapters. *)
Theorem run_rows_sites (adapters : list Adapter) (row : Row F)
  (Hrow : In row (fst (cycle table extractOne total_stake (poll_all adapters)))) :
  In (row_site1 row) (map site_name adapters) /\
  In (row_site2 row) (map site_name adapters).
Proof.
  unfold cycle in Hrow.
  destruct (settle_rows total_stake _ row Hrow) as (k & b & Hkb & Hs).
  destruct (settle_bucket_some total_stake k b row Hs)
    as (_ & arb & s1 & s2 & p & Hd & _ & ->).
  destruct (detect_some b arb Hd) as (first & rest & i1 & i2 & Eb & _ & _ & _ & ->).
  destruct (group_by_match_buckets table extractOne (poll_all adapters)) as (_ & Hb & _).
  destruct (Hb k b Hkb) as [_ Efilter].
  assert (Hin : forall e, In e b -> In (site e) (map site_name adapters)).
  { intros e He. rewrite Efilter in He. apply filter_In in He as [He _].
    unfold poll in He. apply in_flat_map in He as (self & Hself & Hf).
    destruct (fetch_record self e Hf) as (m & E).
    destruct (extract_match_record self m e E) as (-> & _). now apply in_map. }
  cbn [row_site1 row_site2 site_team1 site_team2].
  split; apply Hin; rewrite Eb; apply py_max_in.
Qed.

End Run.

End ExtractionFacts.

Module ExampleFacts.

Local Open Scope string_scope.
Local Open Scope list_scope.

Local Abbreviation polled :=
  (poll string Sample.soup Sample.select Sample.select_one Sample.get_text
     Sample.dt_parse Sample.page_content Sample.adapters).

Lemma first_text_first_witness :
  exists before sel after,
    [""; "2.10"; "3"] = before ++ sel :: after /\
    Sample.select_one "row" sel = Some (Some "2.10") /\
    forall s, In s before ->
      Sample.select_one "row" s = Some None \/
      exists el', Sample.select_one "row" s = Some (Some el') /\
                  Sample.get_text el' = "".
Proof.
  destruct (first_text_first string Sample.select_one Sample.get_text
              "row" [""; "2.10"; "3"]) as [Hsome _].
  destruct (Hsome "2.10" eq_refl)
    as (_ & before & sel & el & after & E & Hs & Hg & Hb).
  exists before, sel, after. split; [exact E|]. split; [|exact Hb].
  rewrite Hs. unfold Sample.get_text in Hg. now rewrite Hg.
Defined.

Lemma poll_records_witness :
  exists ev : EventOdds float,
    In ev polled /\
    In (site ev) (map site_name Sample.adapters) /\ team1 ev <> "".
Proof.
  assert (Hev : exists ev : EventOdds float, In ev polled)
    by (eexists; vm_compute; left; reflexivity).
  destruct Hev as [ev Hev].
  destruct (poll_records string Sample.soup Sample.select Sample.select_one
              Sample.get_text Sample.dt_parse Sample.page_content
              Sample.adapters ev Hev) as (Hs & _ & _ & _ & Ht & _).
  exists ev. repeat split; assumption.
Defined.

Lemma run_rows_sites_witness :
  exists row : Row float,
    In row (fst (cycle ALIASES Scenario.no_scorer 400%float polled)) /\
    In (row_site1 row) (map site_name Sample.adapters) /\
    In (row_site2 row) (map site_name Sample.adapters).
Proof.
  assert (Hrow : exists row : Row float,
             In row (fst (cycle ALIASES Scenario.no_scorer 400%float polled)))
    by (eexists; vm_compute; left; reflexivity).
  destruct Hrow as [row Hrow].
  destruct (run_rows_sites string Sample.soup Sample.select
              Sample.select_one Sample.get_text Sample.dt_parse
              Sample.page_content ALIASES Scenario.no_scorer 400%float
              Sample.adapters row Hrow) as [H1 H2].
  exists row. repeat split; assumption.
Defined.

End ExampleFacts.
